(** * The k6 JavaScript compiler front end ([package compiler])

    A shallow embedding of [Compiler.Compile], [compileImpl],
    [Compiler.Transform], [babel.transformImpl], [newBabel],
    [compilationState.sourceMapLoader] and
    [compilationState.increaseMappingsByOne], followed by the properties
    the specification states about them.

    The Go code drives four external libraries: the goja parser and
    compiler, the bundled babel library running inside a goja VM,
    [encoding/json], and the injected [Options.SourceMapLoader].  They are
    the fields of the record [Engine]; everything else is translated from
    the Go source, with mutable state passed explicitly. *)

From stdpp Require Import gmap strings list.
From Stdlib Require Import ZArith Ascii.

#[local] Set Warnings "-register-all".
#[local] Open Scope string_scope.

(** ** Data *)

(** Go's [[]byte]: [None] is the nil slice. *)
Definition bytes : Type := option string.

(** The line feed, written ["\n"] in Go. *)
Definition LF : string := String "010"%char EmptyString.

(** A [float64], kept as its 64 bits. *)
Definition float64 : Type := Z.

(** What [json.Unmarshal] stores in an [interface{}]. *)
Inductive JSON : Type :=
| JNull
| JBool (b : bool)
| JNumber (f : float64)
| JString (s : string)
| JArray (l : list JSON)
| JObject (m : gmap string JSON).

(** Go [error] values, tagged by the library that creates them. *)
Inductive error : Type :=
| SyntaxError (msg : string)              (* goja parser: the grammar *)
| CouldNotLoadSourceMap (cause : error)   (* goja parser: "Could not load source map: %v" *)
| CouldNotParseSourceMap (msg : string)   (* goja parser: "Could not parse source map: %v" *)
| ErrorList (errs : list error)           (* goja parser.ErrorList *)
| LoaderError (msg : string)              (* Options.SourceMapLoader *)
| Base64Error (msg : string)              (* encoding/base64, inline maps *)
| JSONError (msg : string)                (* encoding/json *)
| ErrorsNew (msg : string)                (* errors.New *)
| BabelError (msg : string)               (* exception raised in babel's VM *)
| CompileError (msg : string).            (* goja.Compile, goja.CompileAST, RunProgram *)

Module lib.
(** Modelled from the spec: the type [lib.CompatibilityMode] and its two
    constants are declared in package [lib], outside this file.  The
    spec gives the enum {Base, Extended}. *)
Inductive CompatibilityMode : Type :=
| CompatibilityModeExtended
| CompatibilityModeBase.

(** Modelled from the spec: the order in which a mode "never increases";
    [Extended] lies above [Base]. *)
Definition rank (m : CompatibilityMode) : nat :=
  match m with
  | CompatibilityModeExtended => 1
  | CompatibilityModeBase => 0
  end.
End lib.

(** A value returned by a Go function, or a run-time panic. *)
Inductive Outcome (A : Type) : Type :=
| Return (a : A)
| Panic.
Arguments Return {A} a.
Arguments Panic {A}.

(** The options object handed to [Babel.transform]. *)
Record BabelOptions : Type := {
  plugins : list (string * option bool);   (* name, and "loose" when given *)
  ast : bool;
  sourceMaps : bool;
  babelrc : bool;
  compact : bool;
  retainLines : bool;
  highlightCode : bool;
  inputSourceMap : option (gmap string JSON);
  filename : option string;
}.

Definition DefaultOpts : BabelOptions := {|
  plugins := [ ("transform-es2015-classes", Some false);
               ("transform-es2015-object-super", None);
               ("transform-es2015-modules-commonjs", Some false);
               ("transform-exponentiation-operator", None) ];
  ast := false;
  sourceMaps := false;
  babelrc := false;
  compact := false;
  retainLines := true;
  highlightCode := false;
  inputSourceMap := None;
  filename := None;
|}.

(** The object [Babel.transform] returns: what exporting its [code]
    property to a Go string gives, and what [JSON.stringify] of its [map]
    property gives. *)
Record BabelResult : Type := {
  res_code : string + string;
  res_map : string + string;
}.

(** What the parser finds in a [sourceMappingURL] comment: nothing, an
    inline [data:application/json] URI (base64-decoded by the parser), or
    a URL resolved against the file name and handed to the loader. *)
Inductive SourceMapRef : Type :=
| NoSourceMap
| InlineSourceMap (data : string + string)
| ExternalSourceMap (url : string).

(** ** The external libraries *)

Record Engine : Type := {
  (* github.com/dop251/goja/ast and goja *)
  ast_Program : Type;
  goja_Program : Type;
  (* goja/parser: the tree and the syntax errors of [code] in [filename] *)
  parseProgram : string → string → ast_Program * list string;
  (* goja/parser: the sourceMappingURL comment of [code] in [filename] *)
  sourceMappingURL : string → string → SourceMapRef;
  (* go-sourcemap: [sourcemap.Parse filename data], its error if any *)
  sourcemap_Parse : string → string → option string;
  (* goja.CompileAST ast strict *)
  goja_CompileAST : ast_Program → bool → goja_Program + string;
  (* goja.Compile "<internal/k6/compiler/lib/babel.min.js>" babelSrc false *)
  goja_Compile_babelSrc : goja_Program + string;
  (* vm.RunProgram on a fresh runtime, its error if any *)
  vm_RunProgram : goja_Program → option string;
  (* vm.ExportTo (Babel.transform) on that runtime, its error if any *)
  vm_ExportTo_transform : goja_Program → option string;
  (* the callable Babel.transform *)
  babel_transform : string → BabelOptions → BabelResult + string;
  (* encoding/json, into and from a map[string]interface{} *)
  json_Unmarshal : bytes → gmap string JSON + string;
  json_Marshal : gmap string JSON → bytes * option string;
}.

(** [type Options struct] *)
Record Options : Type := {
  CompatibilityMode : lib.CompatibilityMode;
  SourceMapLoader : option (string → bytes * option string);
  Strict : bool;
}.

(** [type Compiler struct]; its field [babel] is mutable and lives in
    [World] below, the logger only receives the events of [World]. *)
Record Compiler : Type := {
  Opts : Options;
}.

(** [type babel struct]: one VM running the bundled library.  Every
    instance runs the same program, so an instance carries no data. *)
Inductive babel : Type := Babel.

(** [type compilationState struct]; [compiler] is the section variable. *)
Record compilationState : Type := {
  couldntLoadSourceMap : bool;
  srcMap : bytes;
  main : bool;
}.

Definition set_couldntLoadSourceMap (b : bool) (c : compilationState) : compilationState :=
  {| couldntLoadSourceMap := b; srcMap := srcMap c; main := main c |}.

Definition set_srcMap (m : bytes) (c : compilationState) : compilationState :=
  {| couldntLoadSourceMap := couldntLoadSourceMap c; srcMap := m; main := main c |}.

Definition sourceMapURLFromBabel : string := "k6://internal-should-not-leak/file.map".

(** What the calls leave behind, in the order they happen. *)
Inductive Event : Type :=
| EvCompileImpl (src : string) (main : bool) (mode : lib.CompatibilityMode) (srcMap : bytes)
| EvParseFile (code : string) (sourceMaps : bool)
| EvWarn (filename : string) (err : option error)
| EvTransform (src : string) (inputSrcMap : bytes)
| EvTransformed (code : string) (srcMap : bytes) (err : option error)
| EvBabelBuild
| EvDebug (msg : string).

(** ** The mutable state outside a single compilation

    The package-level variables [onceBabelCode], [globalBabelCode],
    [globalBabelCodeErr], [onceBabel], [globalBabel], the field [babel] of
    the compiler in use, and the events so far.  A [sync.Once] is the
    boolean "its function has run". *)
Record World (E : Engine) : Type := {
  onceBabelCode : bool;
  globalBabelCode : option (goja_Program E);
  globalBabelCodeErr : option string;   (* the message of goja.Compile's error *)
  onceBabel : bool;
  globalBabel : option babel;
  c_babel : option babel;
  events : list Event;
}.
Arguments onceBabelCode {E} w.
Arguments globalBabelCode {E} w.
Arguments globalBabelCodeErr {E} w.
Arguments onceBabel {E} w.
Arguments globalBabel {E} w.
Arguments c_babel {E} w.
Arguments events {E} w.

(** The state of a fresh process with a compiler made by [New]. *)
Definition freshWorld (E : Engine) : World E := {|
  onceBabelCode := false;
  globalBabelCode := None;
  globalBabelCodeErr := None;
  onceBabel := false;
  globalBabel := None;
  c_babel := None;
  events := [];
|}.

(** The options of [parser.ParseFile] the compiler uses. *)
Inductive parser_Option : Type :=
| WithDisableSourceMaps
| WithSourceMapLoader
    (loader : string → compilationState → compilationState * (bytes * option error)).

Section Compiler.
Context (E : Engine).

Definition emit (e : Event) (w : World E) : World E :=
  {| onceBabelCode := onceBabelCode w;
     globalBabelCode := globalBabelCode w;
     globalBabelCodeErr := globalBabelCodeErr w;
     onceBabel := onceBabel w;
     globalBabel := globalBabel w;
     c_babel := c_babel w;
     events := events w ++ [e] |}.

(** *** [increaseMappingsByOne] *)
Definition increaseMappingsByOne (c : compilationState) (sourceMap : bytes)
  : compilationState * (bytes * option error) :=
  match json_Unmarshal E sourceMap with
  | inr err => (c, (None, Some (JSONError err)))
  | inl m =>
      match m !! "mappings" with
      | None => (c, (sourceMap, None))
      | Some mappings =>
          match mappings with
          | JString str =>
              let m := <["mappings" := JString (";" +:+ str)]> m in
              let '(out, err) := json_Marshal E m in
              (c, (out, JSONError <$> err))
          | _ =>
              (set_couldntLoadSourceMap true c,
               (None, Some (ErrorsNew "missing mappings in sourcemap")))
          end
      end
  end.

(** *** [sourceMapLoader] *)
Definition sourceMapLoader (o : Options) (path : string) (c : compilationState)
  : compilationState * (bytes * option error) :=
  if decide (path = sourceMapURLFromBabel) then
    if negb (main c) then increaseMappingsByOne c (srcMap c)
    else (c, (srcMap c, None))
  else
    match SourceMapLoader o with
    | None => (c, (None, None)) (* not reached: installed only when non-nil *)
    | Some load =>
        let '(data, err) := load path in
        let c := set_srcMap data c in
        match err with
        | Some e => (set_couldntLoadSourceMap true c, (None, Some (LoaderError e)))
        | None =>
            if negb (main c) then increaseMappingsByOne c (srcMap c)
            else (c, (srcMap c, None))
        end
    end.

(** *** [parser.ParseFile]

    The parser first parses the program, collecting syntax errors, then
    looks at the sourceMappingURL comment unless source maps are
    disabled; an error of the loader, and a map that [sourcemap.Parse]
    rejects, each add one error.  The result carries the error list when
    it is not empty. *)
Definition parseSourceMap (file code : string) (opt : parser_Option)
    (st : compilationState) : compilationState * list error :=
  match opt with
  | WithDisableSourceMaps => (st, [])
  | WithSourceMapLoader loader =>
      let loaded :=
        match sourceMappingURL E file code with
        | NoSourceMap => (st, (None, None))
        | InlineSourceMap (inl d) => (st, (Some d, None))
        | InlineSourceMap (inr e) => (st, (None, Some (Base64Error e)))
        | ExternalSourceMap url => loader url st
        end in
      let '(st, (data, err)) := loaded in
      match err with
      | Some e => (st, [CouldNotLoadSourceMap e])
      | None =>
          match data with
          | None => (st, [])
          | Some d =>
              match sourcemap_Parse E file d with
              | None => (st, [])
              | Some e => (st, [CouldNotParseSourceMap e])
              end
          end
      end
  end.

Definition ErrorList_Err (errs : list error) : option error :=
  match errs with
  | [] => None
  | _ => Some (ErrorList errs)
  end.

Definition ParseFile (file code : string) (opt : parser_Option)
    (st : compilationState)
  : compilationState * (ast_Program E * option error) :=
  let '(prg, syntax) := parseProgram E file code in
  let '(st, maperrs) := parseSourceMap file code opt st in
  (st, (prg, ErrorList_Err ((SyntaxError <$> syntax) ++ maperrs))).

(** *** [newBabel] *)
Definition onceBabelCode_Do (w : World E) : World E :=
  if onceBabelCode w then w
  else
    let r := goja_Compile_babelSrc E in
    {| onceBabelCode := true;
       globalBabelCode := match r with inl p => Some p | inr _ => None end;
       globalBabelCodeErr := match r with inl _ => None | inr e => Some e end;
       onceBabel := onceBabel w;
       globalBabel := globalBabel w;
       c_babel := c_babel w;
       events := events w ++ [EvBabelBuild] |}.

Definition newBabel (w : World E) : World E * Outcome (option babel * option error) :=
  let w := onceBabelCode_Do w in
  match globalBabelCodeErr w with
  | Some e => (w, Return (None, Some (CompileError e)))
  | None =>
      match globalBabelCode w with
      | None => (w, Panic) (* RunProgram on a nil program *)
      | Some p =>
          match vm_RunProgram E p with
          | Some e => (w, Return (None, Some (CompileError e)))
          | None =>
              match vm_ExportTo_transform E p with
              | Some e => (w, Return (None, Some (CompileError e)))
              | None => (w, Return (Some Babel, None))
              end
          end
      end
  end.

(** *** [transformImpl]; the mutex only matters between goroutines. *)
Definition transformImpl (src file : string) (sourceMapsEnabled : bool)
    (inputSrcMap : bytes) (w : World E) : World E * (string * bytes * option error) :=
  let opts := DefaultOpts in
  let opts' : BabelOptions + error :=
    if sourceMapsEnabled then
      let opts :=
        {| plugins := plugins opts; ast := ast opts; sourceMaps := true;
           babelrc := babelrc opts; compact := compact opts; retainLines := false;
           highlightCode := highlightCode opts;
           inputSourceMap := inputSourceMap opts; filename := filename opts |} in
      match inputSrcMap with
      | Some _ =>
          match json_Unmarshal E inputSrcMap with
          | inr e => inr (JSONError e)
          | inl srcMap =>
              inl {| plugins := plugins opts; ast := ast opts;
                     sourceMaps := sourceMaps opts; babelrc := babelrc opts;
                     compact := compact opts; retainLines := retainLines opts;
                     highlightCode := highlightCode opts;
                     inputSourceMap := Some srcMap; filename := filename opts |}
          end
      | None => inl opts
      end
    else inl opts in
  match opts' with
  | inr e => (w, ("", None, Some e))
  | inl opts =>
      let opts :=
        {| plugins := plugins opts; ast := ast opts; sourceMaps := sourceMaps opts;
           babelrc := babelrc opts; compact := compact opts;
           retainLines := retainLines opts; highlightCode := highlightCode opts;
           inputSourceMap := inputSourceMap opts; filename := Some file |} in
      match babel_transform E src opts with
      | inr e => (w, ("", None, Some (BabelError e)))
      | inl v =>
          let w := emit (EvDebug "Babel: Transformed") w in
          match res_code v with
          | inr e => (w, ("", None, Some (BabelError e)))
          | inl code =>
              if negb sourceMapsEnabled then (w, (code, None, None))
              else
                let code := code +:+ LF +:+ "//# sourceMappingURL=" +:+ sourceMapURLFromBabel in
                match res_map v with
                | inr e => (w, (code, None, Some (BabelError e)))
                | inl mapAsJSON => (w, (code, Some mapAsJSON, None))
                end
          end
      end
  end.

Definition set_babels (once : bool) (g cb : option babel) (w : World E) : World E :=
  {| onceBabelCode := onceBabelCode w;
     globalBabelCode := globalBabelCode w;
     globalBabelCodeErr := globalBabelCodeErr w;
     onceBabel := once;
     globalBabel := g;
     c_babel := cb;
     events := events w |}.

(** *** [Compiler.Transform]

    When [onceBabel] has already run and left [globalBabel] nil, the
    receiver of [transformImpl] is nil and locking its mutex panics. *)
Definition Transform (c : Compiler) (src file : string) (inputSrcMap : bytes)
    (w : World E) : World E * Outcome (string * bytes * option error) :=
  let w := emit (EvTransform src inputSrcMap) w in
  let '(w, r) :=
    match c_babel w with
    | Some _ => (w, Return None)
    | None =>
        if onceBabel w then
          (set_babels true (globalBabel w) (globalBabel w) w, Return None)
        else
          let '(w, r) := newBabel w in
          match r with
          | Panic => (set_babels true (globalBabel w) (c_babel w) w, Panic)
          | Return (b, err) => (set_babels true b b w, Return err)
          end
    end in
  match r with
  | Panic => (w, Panic)
  | Return (Some err) =>
      (emit (EvTransformed "" None (Some err)) w, Return ("", None, Some err))
  | Return None =>
      match c_babel w with
      | None => (w, Panic)
      | Some _ =>
          let '(w, (code, srcMap, err)) :=
            transformImpl src file
              (bool_decide (is_Some (SourceMapLoader (Opts c)))) inputSrcMap w in
          (emit (EvTransformed code srcMap err) w, Return (code, srcMap, err))
      end
  end.

(** *** [compileImpl]

    The function-shell of a module that is not the entry module. *)
Definition wrap (code : string) : string :=
  "(function(module, exports){" +:+ LF +:+ code +:+ LF +:+ "})" +:+ LF.

(** Lines 359 to 371 of [compileImpl]: the choice of the parser option,
    the parse, and the second parse without source maps when the loader
    has raised the flag. *)
Definition parserOpts (c : Compiler) : parser_Option :=
  match SourceMapLoader (Opts c) with
  | Some _ => WithSourceMapLoader (sourceMapLoader (Opts c))
  | None => WithDisableSourceMaps
  end.

Definition parseCode (c : Compiler) (file code : string) (state : compilationState)
    (w : World E) : World E * compilationState * (ast_Program E * option error) :=
  let opts := parserOpts c in
  let '(state, (ast, err)) := ParseFile file code opts state in
  let w := emit (EvParseFile code (bool_decide (is_Some (SourceMapLoader (Opts c))))) w in
  if couldntLoadSourceMap state then
    let state := set_couldntLoadSourceMap false state in
    let w := emit (EvWarn file err) w in
    let '(state, (ast, err)) := ParseFile file code WithDisableSourceMaps state in
    let w := emit (EvParseFile code false) w in
    (w, state, (ast, err))
  else (w, state, (ast, err)).

(** The result triple of [Compile]: program, final source text, error. *)
Definition Compiled : Type := option (goja_Program E) * string * option error.

(** The recursion of [compileImpl] is on the compatibility mode; [fuel]
    bounds its depth, and [None] means the bound was too small (two
    suffice, see [compileImpl_fuel]). *)
Fixpoint compileImpl (fuel : nat) (c : Compiler) (src file : string) (main : bool)
    (compatibilityMode : lib.CompatibilityMode) (inSrcMap : bytes) (w : World E)
  : option (World E * Outcome Compiled) :=
  match fuel with
  | O => None
  | S fuel =>
      let w := emit (EvCompileImpl src main compatibilityMode inSrcMap) w in
      let code := src in
      let state := {| couldntLoadSourceMap := false; srcMap := inSrcMap; main := main |} in
      let code := if negb main then wrap code else code in
      let '(w, state, (ast, err)) := parseCode c file code state w in
      match err with
      | Some err =>
          match compatibilityMode with
          | lib.CompatibilityModeExtended =>
              let '(w, r) := Transform c src file (srcMap state) w in
              match r with
              | Panic => Some (w, Panic)
              | Return (code, _, Some err) => Some (w, Return (None, code, Some err))
              | Return (code, newSrcMap, None) =>
                  compileImpl fuel c code file main lib.CompatibilityModeBase newSrcMap w
              end
          | lib.CompatibilityModeBase => Some (w, Return (None, code, Some err))
          end
      | None =>
          match goja_CompileAST E ast (Strict (Opts c)) with
          | inl pgm => Some (w, Return (Some pgm, code, None))
          | inr e => Some (w, Return (None, code, Some (CompileError e)))
          end
      end
  end.

(** *** [Compiler.Compile] *)
Definition Compile (c : Compiler) (src file : string) (main : bool) (w : World E)
  : option (World E * Outcome Compiled) :=
  compileImpl 2 c src file main (CompatibilityMode (Opts c)) None w.

End Compiler.

Arguments emit {E} e w.

(** ** Vocabulary of the specification *)

(** [strings.Split s sep] for a one-character separator. *)
Fixpoint splitOn (sep : ascii) (s : string) : list string :=
  match s with
  | EmptyString => [EmptyString]
  | String a s' =>
      if decide (a = sep) then EmptyString :: splitOn sep s'
      else
        match splitOn sep s' with
        | [] => [String a EmptyString]
        | g :: gs => String a g :: gs
        end
  end.

(** The per-line groups of a mappings table: its pieces between [;]. *)
Definition lineGroups (mappings : string) : list string := splitOn ";"%char mappings.

(** How many line feeds a text holds. *)
Fixpoint lineFeeds (s : string) : nat :=
  match s with
  | EmptyString => 0
  | String a s' => (if decide (a = "010"%char) then 1 else 0) + lineFeeds s'
  end.

(** What a call returned, and the events it left, without the rest of
    the world. *)
Definition outcome {E : Engine} {A : Type} (r : option (World E * Outcome A))
  : option (Outcome A) := snd <$> r.

Definition trace {E : Engine} {A : Type} (r : option (World E * Outcome A))
  : list Event := from_option (λ x, events x.1) [] r.

(** The events of a given kind. *)
Definition transforms (l : list Event) : list (string * bytes) :=
  omap (λ e, match e with EvTransform s m => Some (s, m) | _ => None end) l.

Definition transformed (l : list Event) : list (string * bytes * option error) :=
  omap (λ e, match e with EvTransformed s m err => Some (s, m, err) | _ => None end) l.

Definition modes (l : list Event) : list lib.CompatibilityMode :=
  omap (λ e, match e with EvCompileImpl _ _ m _ => Some m | _ => None end) l.

Definition parsed (l : list Event) : list (string * bool) :=
  omap (λ e, match e with EvParseFile code sm => Some (code, sm) | _ => None end) l.

Definition warnings (l : list Event) : list string :=
  omap (λ e, match e with EvWarn f _ => Some f | _ => None end) l.

Definition builds (l : list Event) : nat :=
  length (omap (λ e, match e with EvBabelBuild => Some () | _ => None end) l).

(** [d] holds nothing but the babel build and debug lines. *)
Definition silent (d : list Event) : Prop :=
  modes d = [] ∧ transforms d = [] ∧ transformed d = [] ∧ parsed d = [] ∧ warnings d = [].

(** The events of lines 359 to 371 of [compileImpl]: one parse, or a
    parse, the warning and the parse without source maps. *)
Definition parseStage (file code : string) (d : list Event) : Prop :=
  ∃ b, d = [EvParseFile code b] ∨
       ∃ e, d = [EvParseFile code b; EvWarn file e; EvParseFile code false].

(** The text [compileImpl] hands to the parser. *)
Definition parserInput (main : bool) (src : string) : string :=
  if negb main then "(function(module, exports){" +:+ LF +:+ src +:+ LF +:+ "})" +:+ LF
  else src.

(** The three ways one call of [compileImpl] can run, with the events it
    adds and what it returns: without fallback; with a transform that
    fails or panics; with a transform followed by the second
    [compileImpl]. *)
Inductive CompileRun (E : Engine) (src file : string) (main : bool)
    (mode : lib.CompatibilityMode) (sm0 : bytes)
  : list Event → Outcome (Compiled E) → Prop :=
| run_direct dp pgm err :
    parseStage file (parserInput main src) dp →
    CompileRun E src file main mode sm0
      (EvCompileImpl src main mode sm0 :: dp)
      (Return (pgm, parserInput main src, err))
| run_transform_failed dp sm dt r :
    mode = lib.CompatibilityModeExtended →
    parseStage file (parserInput main src) dp →
    modes dt = [] → transforms dt = [] → parsed dt = [] →
    match r with
    | Panic => transformed dt = []
    | Return (pgm, code, err) =>
        pgm = None ∧ ∃ m e, err = Some e ∧ transformed dt = [(code, m, Some e)]
    end →
    CompileRun E src file main mode sm0
      (EvCompileImpl src main mode sm0 :: dp ++ EvTransform src sm :: dt) r
| run_transformed dp sm dt code m dp' pgm err :
    mode = lib.CompatibilityModeExtended →
    parseStage file (parserInput main src) dp →
    modes dt = [] → transforms dt = [] → parsed dt = [] →
    transformed dt = [(code, m, None)] →
    parseStage file (parserInput main code) dp' →
    CompileRun E src file main mode sm0
      (EvCompileImpl src main mode sm0 :: dp ++ EvTransform src sm :: dt ++
         EvCompileImpl code main lib.CompatibilityModeBase m :: dp')
      (Return (pgm, parserInput main code, err)).

(** Does an error come from the injected loader, directly or wrapped by
    the parser? *)
Fixpoint fromLoader (e : error) : bool :=
  match e with
  | LoaderError _ => true
  | CouldNotLoadSourceMap cause => fromLoader cause
  | ErrorList errs => existsb fromLoader errs
  | _ => false
  end.

(** ** A stand-in engine

    A small concrete [Engine] on which the theorems below are exercised.
    Its parser accepts every text without the exponent operator and
    without [async]; its babel lowers the one program of [lowered] and
    leaves other text as it is; its JSON reads and writes flat objects
    whose members are strings or natural numbers. *)
Module TestEngine.

Definition DQ : string := String "034"%char EmptyString.

Definition contains (sub s : string) : bool :=
  bool_decide (is_Some (String.index 0 sub s)).

Definition parseProgram (file code : string) : string * list string :=
  (code,
   app (if contains "**" code then ["Unexpected token *"] else [])
       (if contains "async " code then ["Unexpected reserved word"] else [])).

Definition joinLines (l : list string) : string := String.concat LF l.

(** The last line that is neither empty nor the closing of the function
    shell, when it is a sourceMappingURL comment. *)
Fixpoint extractSourceMapLine (rev_lines : list string) : option string :=
  match rev_lines with
  | [] => None
  | line :: rest =>
      if decide (line = "") then extractSourceMapLine rest
      else if decide (line = "})") then extractSourceMapLine rest
      else if String.prefix "//# sourceMappingURL=" line
           then Some (String.substring 21 (String.length line - 21) line)
           else None
  end.

Definition sourceMappingURL (file code : string) : SourceMapRef :=
  match extractSourceMapLine (rev (splitOn "010"%char code)) with
  | Some url => ExternalSourceMap url
  | None => NoSourceMap
  end.

Definition sourcemap_Parse (file data : string) : option string :=
  if String.prefix "{" data then None else Some "invalid character".

Definition goja_CompileAST (ast : string) (strict : bool) : string + string :=
  if strict && contains "with (" ast
  then inr "Strict mode code may not include a with statement"
  else inl ast.

Definition lowered : list (string * string) :=
  [ ("var y = x ** 2;", "var y = Math.pow(x, 2);") ].

Definition mapFromBabel : string :=
  "{" +:+ DQ +:+ "mappings" +:+ DQ +:+ ":" +:+ DQ +:+ "AAAA" +:+ DQ +:+ "}".

Definition babel_transform (src : string) (opts : BabelOptions) : BabelResult + string :=
  if contains "%%" src then inr "SyntaxError: unknown: Unexpected token"
  else
    let code := default src (snd <$> list_find (λ p, fst p = src) lowered ≫= (λ r, Some (snd r))) in
    inl {| res_code := inl code; res_map := inl mapFromBabel |}.

(** The JSON stand-in: [{"k":"v","n":3}] without blanks or escapes. *)
Fixpoint scanString (s : string) : option (string * string) :=
  match s with
  | EmptyString => None
  | String a r =>
      if decide (a = "034"%char) then Some (EmptyString, r)
      else '(x, r') ← scanString r; Some (String a x, r')
  end.

Definition digit (a : ascii) : option Z :=
  let n := Z.of_nat (nat_of_ascii a) in
  if decide (48 ≤ n ≤ 57)%Z then Some (n - 48)%Z else None.

Fixpoint scanDigits (acc : Z) (s : string) : Z * string :=
  match s with
  | EmptyString => (acc, s)
  | String a r =>
      match digit a with
      | Some d => scanDigits (10 * acc + d) r
      | None => (acc, s)
      end
  end.

Definition scanValue (s : string) : option (JSON * string) :=
  match s with
  | EmptyString => None
  | String a r =>
      if decide (a = "034"%char) then '(x, r') ← scanString r; Some (JString x, r')
      else match digit a with
           | Some _ => let '(n, r') := scanDigits 0 s in Some (JNumber n, r')
           | None => None
           end
  end.

Fixpoint scanMembers (fuel : nat) (s : string) (acc : gmap string JSON)
  : option (gmap string JSON) :=
  match fuel with
  | O => None
  | S fuel =>
      match s with
      | String a r =>
          if decide (a = "034"%char) then
            '(k, r1) ← scanString r;
            match r1 with
            | String ":" r2 =>
                '(v, r3) ← scanValue r2;
                match r3 with
                | String "," r4 => scanMembers fuel r4 (<[k := v]> acc)
                | String "}" EmptyString => Some (<[k := v]> acc)
                | _ => None
                end
            | _ => None
            end
          else None
      | EmptyString => None
      end
  end.

Definition json_Unmarshal (data : bytes) : gmap string JSON + string :=
  match data with
  | None => inr "unexpected end of JSON input"
  | Some s =>
      match s with
      | String "{" (String "}" EmptyString) => inl ∅
      | String "{" r =>
          match scanMembers (String.length r) r ∅ with
          | Some m => inl m
          | None => inr "invalid character"
          end
      | _ => inr "invalid character"
      end
  end.

Fixpoint decimal (fuel : nat) (n : Z) (acc : string) : string :=
  match fuel with
  | O => acc
  | S fuel =>
      let acc := String (ascii_of_nat (Z.to_nat (48 + n `mod` 10))) acc in
      if decide (n < 10)%Z then acc else decimal fuel (n `div` 10) acc
  end.

Definition member (kv : string * JSON) : option string :=
  match kv.2 with
  | JString s => Some (DQ +:+ kv.1 +:+ DQ +:+ ":" +:+ DQ +:+ s +:+ DQ)
  | JNumber n => Some (DQ +:+ kv.1 +:+ DQ +:+ ":" +:+ decimal 20 n EmptyString)
  | _ => None
  end.

Definition json_Marshal (m : gmap string JSON) : bytes * option string :=
  match mapM member (map_to_list m) with
  | Some l => (Some ("{" +:+ String.concat "," l +:+ "}"), None)
  | None => (None, Some "json: unsupported value")
  end.

Definition engine : Engine :=
  Build_Engine string string parseProgram sourceMappingURL sourcemap_Parse
    goja_CompileAST (inl "babel.min.js") (λ _, None) (λ _, None)
    babel_transform json_Unmarshal json_Marshal.

Definition goodMap : string :=
  "{" +:+ DQ +:+ "mappings" +:+ DQ +:+ ":" +:+ DQ +:+ "AAAA;CAAC,EAAE" +:+ DQ +:+ ","
      +:+ DQ +:+ "version" +:+ DQ +:+ ":3}".

Definition oddMap : string :=
  "{" +:+ DQ +:+ "mappings" +:+ DQ +:+ ":7}".

Definition sectionsMap : string :=
  "{" +:+ DQ +:+ "version" +:+ DQ +:+ ":3}".

(** The injected loader: three files exist, one of them is not JSON. *)
Definition load (path : string) : bytes * option string :=
  if decide (path = "good.map") then (Some goodMap, None)
  else if decide (path = "odd.map") then (Some oddMap, None)
  else if decide (path = "broken.map") then (Some "<html>", None)
  else (None, Some "open: no such file or directory").

Definition noFile (path : string) : bytes * option string :=
  (None, Some "open: no such file or directory").

(** Sources: one the stand-in babel lowers, one it leaves alone, one the
    strict compiler rejects, and plain ones that refer to a map. *)
Definition powSrc : string := "var y = x ** 2;".
Definition asyncSrc : string := "async function f() {}".
Definition withSrc : string := "with (o) { x; }".
Definition plainSrc : string := "var y = 2;".
Definition goneSrc : string := plainSrc +:+ LF +:+ "//# sourceMappingURL=gone.map".
Definition brokenSrc : string := plainSrc +:+ LF +:+ "//# sourceMappingURL=broken.map".
Definition oddSrc : string := plainSrc +:+ LF +:+ "//# sourceMappingURL=odd.map".

Definition goodObject : gmap string JSON :=
  <["mappings" := JString "AAAA;CAAC,EAAE"]> (<["version" := JNumber 3%Z]> ∅).

Definition state0 (main : bool) : compilationState :=
  {| couldntLoadSourceMap := false; srcMap := None; main := main |}.

Definition compiler (mode : lib.CompatibilityMode)
    (loader : option (string → bytes * option string)) (strict : bool) : Compiler :=
  {| Opts := {| CompatibilityMode := mode; SourceMapLoader := loader; Strict := strict |} |}.
End TestEngine.

(** ** Goroutines creating babel instances

    Every creator of a [babel] runs [newBabel], whose first statement is
    [onceBabelCode.Do].  Goroutines are interleaved step by step over the
    shared package variables; a step is one access to shared memory.
    [sync.Once.Do] is the standard library's: a load of [done], and when
    it is zero the slow path, which takes the mutex of the [Once], loads
    [done] again, runs the function and stores [done] before it unlocks.
    The function of [newBabel] calls [goja.Compile] and stores its two
    results one after the other. *)
Module Concurrent.

(** Where a goroutine stands inside [newBabel]. *)
Inductive pc (E : Engine) : Type :=
| AtDoLoad          (* Do: if o.done.Load() == 0 *)
| AtLock            (* doSlow: o.m.Lock() *)
| AtCheck           (* doSlow: if o.done.Load() == 0 *)
| AtCall            (* f: goja.Compile(babelSrc) *)
| AtStoreCode       (* f: globalBabelCode = ... *)
| AtStoreErr        (* f: globalBabelCodeErr = ... *)
| AtStoreDone       (* deferred: o.done.Store(1) *)
| AtUnlock          (* deferred: o.m.Unlock() *)
| AtReadErr         (* if globalBabelCodeErr != nil *)
| AtReadCode        (* vm.RunProgram(globalBabelCode) *)
| Saw (err : option string) (code : option (goja_Program E)).
                  (* what this creator has read of the shared build *)
Arguments AtDoLoad {E}.
Arguments AtLock {E}.
Arguments AtCheck {E}.
Arguments AtCall {E}.
Arguments AtStoreCode {E}.
Arguments AtStoreErr {E}.
Arguments AtStoreDone {E}.
Arguments AtUnlock {E}.
Arguments AtReadErr {E}.
Arguments AtReadCode {E}.
Arguments Saw {E} err code.

(** The shared memory: the [Once], the two package variables, and a
    counter of the calls of [goja.Compile] on the babel source. *)
Record Shared (E : Engine) : Type := {
  done : bool;
  mutex : option nat;
  code : option (goja_Program E);
  err : option string;
  compiles : nat;
}.
Arguments done {E} s.
Arguments mutex {E} s.
Arguments code {E} s.
Arguments err {E} s.
Arguments compiles {E} s.

Definition built_code (E : Engine) : option (goja_Program E) :=
  match goja_Compile_babelSrc E with inl p => Some p | inr _ => None end.

Definition built_err (E : Engine) : option string :=
  match goja_Compile_babelSrc E with inl _ => None | inr e => Some e end.

(** One step of goroutine [i]; [None] when it is blocked or has
    finished. *)
Definition step1 {E : Engine} (i : nat) (s : Shared E) (p : pc E)
  : option (Shared E * pc E) :=
  match p with
  | AtDoLoad => Some (s, if done s then AtReadErr else AtLock)
  | AtLock =>
      match mutex s with
      | None => Some ({| done := done s; mutex := Some i; code := code s;
                         err := err s; compiles := compiles s |}, AtCheck)
      | Some _ => None
      end
  | AtCheck => Some (s, if done s then AtUnlock else AtCall)
  | AtCall => Some ({| done := done s; mutex := mutex s; code := code s;
                     err := err s; compiles := S (compiles s) |}, AtStoreCode)
  | AtStoreCode => Some ({| done := done s; mutex := mutex s; code := built_code E;
                          err := err s; compiles := compiles s |}, AtStoreErr)
  | AtStoreErr => Some ({| done := done s; mutex := mutex s; code := code s;
                         err := built_err E; compiles := compiles s |}, AtStoreDone)
  | AtStoreDone => Some ({| done := true; mutex := mutex s; code := code s;
                          err := err s; compiles := compiles s |}, AtUnlock)
  | AtUnlock => Some ({| done := done s; mutex := None; code := code s;
                       err := err s; compiles := compiles s |}, AtReadErr)
  | AtReadErr =>
      match err s with
      | Some e => Some (s, Saw (Some e) None)
      | None => Some (s, AtReadCode)
      end
  | AtReadCode => Some (s, Saw None (code s))
  | Saw _ _ => None
  end.

(** The scheduler's choices: start one more creator, or let goroutine
    [i] take a step (nothing happens when it cannot). *)
Inductive choice : Type :=
| Spawn
| Run (i : nat).

Definition Config (E : Engine) : Type := Shared E * list (pc E).

Definition initial (E : Engine) : Config E :=
  ({| done := false; mutex := None; code := None; err := None; compiles := 0 |}, []).

Definition step {E : Engine} (cfg : Config E) (ch : choice) : Config E :=
  match ch with
  | Spawn => (cfg.1, app cfg.2 [AtDoLoad])
  | Run i =>
      match cfg.2 !! i with
      | Some p =>
          match step1 i cfg.1 p with
          | Some (s', p') => (s', <[i := p']> cfg.2)
          | None => cfg
          end
      | None => cfg
      end
  end.

Definition run {E : Engine} (schedule : list choice) : Config E :=
  foldl step (initial E) schedule.

(** What every creator must see: the error of the one build, or else
    its program. *)
Definition build_seen (E : Engine) : pc E :=
  match goja_Compile_babelSrc E with
  | inl p => Saw None (Some p)
  | inr e => Saw (Some e) None
  end.

Definition holding {E : Engine} (p : pc E) : bool :=
  match p with
  | AtCheck | AtCall | AtStoreCode | AtStoreErr | AtStoreDone | AtUnlock => true
  | _ => false
  end.

(** What holds of the shared memory while a goroutine stands at [p]. *)
Definition at_pc {E : Engine} (s : Shared E) (p : pc E) : Prop :=
  match p with
  | AtDoLoad | AtLock | AtCheck => True
  | AtCall => done s = false ∧ compiles s = 0
  | AtStoreCode => done s = false ∧ compiles s = 1
  | AtStoreErr => done s = false ∧ compiles s = 1 ∧ code s = built_code E
  | AtStoreDone =>
      done s = false ∧ compiles s = 1 ∧ code s = built_code E ∧ err s = built_err E
  | AtUnlock | AtReadErr => done s = true
  | AtReadCode => done s = true ∧ built_err E = None
  | Saw e c => done s = true ∧ Saw e c = build_seen E
  end.

Definition building {E : Engine} (p : pc E) : bool :=
  match p with
  | AtStoreCode | AtStoreErr | AtStoreDone => true
  | _ => false
  end.

(** The invariant of the interleaving. *)
Record Inv {E : Engine} (cfg : Config E) : Prop := {
  inv_holder : ∀ j p, cfg.2 !! j = Some p → holding p = true → mutex cfg.1 = Some j;
  inv_mutex : ∀ j, mutex cfg.1 = Some j → ∃ p, cfg.2 !! j = Some p ∧ holding p = true;
  inv_done : done cfg.1 = true →
             compiles cfg.1 = 1 ∧ code cfg.1 = built_code E ∧ err cfg.1 = built_err E;
  inv_fresh : done cfg.1 = false →
              compiles cfg.1 = 0 ∨ ∃ j p, cfg.2 !! j = Some p ∧ building p = true;
  inv_at : ∀ j p, cfg.2 !! j = Some p → at_pc cfg.1 p;
}.
End Concurrent.

(** ** [initializeBabel]

    A babel of the compiler's own, made without [onceBabel]; the pool calls
    it on every compiler it creates. *)
Definition initializeBabel {E : Engine} (w : World E) : World E * Outcome (option error) :=
  match c_babel w with
  | Some _ => (w, Return None)
  | None =>
      let '(w, r) := newBabel E w in
      match r with
      | Panic => (w, Panic)
      | Return (b, err) => (set_babels E (onceBabel w) (globalBabel w) b w, Return err)
      end
  end.

(** A stand-in engine whose babel source does not compile. *)
Definition brokenBabelEngine : Engine :=
  Build_Engine string string TestEngine.parseProgram TestEngine.sourceMappingURL
    TestEngine.sourcemap_Parse TestEngine.goja_CompileAST
    (inr "SyntaxError: babel.min.js: Unexpected end of input")
    (λ _, None) (λ _, None)
    TestEngine.babel_transform TestEngine.json_Unmarshal TestEngine.json_Marshal.

(** * The StatsD output configuration ([package statsd])

    The first file of the source: [config], [Apply], [newConfig],
    [getConsolidatedConfig], [processTags] and [nullTagFormatType]. *)
Module statsd.

(** [null.String], [null.Int] and [types.NullDuration]: a value and
    whether it was set.  Integers and durations are [int64] in Go. *)
Record null_String : Type := { ns_String : string; ns_Valid : bool }.
Record null_Int : Type := { ni_Int64 : Z; ni_Valid : bool }.
Record NullDuration : Type := { nd_Duration : Z; nd_Valid : bool }.

(** [stats.TagSet] is [map[string]bool]; [None] is the nil map. *)
Definition TagSet : Type := option (gmap string bool).

(** [t[key]] on a [TagSet]: false when the map is nil or lacks the key. *)
Definition TagSet_get (t : TagSet) (key : string) : bool :=
  match t with
  | None => false
  | Some m => default false (m !! key)
  end.

(** [type tagFormatType int] and its constants, in the order of [iota]. *)
Inductive tagFormatType : Type :=
| tagFormatNone
| tagFormatDatadog
| tagFormatNewrelic
| tagFormatStatsdv2.

(** [type nullTagFormatType struct] *)
Record nullTagFormatType : Type := { t : tagFormatType; Valid : bool }.

(** [type config struct] *)
Record config : Type := {
  Addr : null_String;
  BufferSize : null_Int;
  Namespace : null_String;
  PushInterval : NullDuration;
  TagBlocklist : TagSet;
  TagFormat : nullTagFormatType;
}.

(** The zero value [config{}]. *)
Definition zeroConfig : config := {|
  Addr := {| ns_String := ""; ns_Valid := false |};
  BufferSize := {| ni_Int64 := 0; ni_Valid := false |};
  Namespace := {| ns_String := ""; ns_Valid := false |};
  PushInterval := {| nd_Duration := 0; nd_Valid := false |};
  TagBlocklist := None;
  TagFormat := {| t := tagFormatNone; Valid := false |};
|}.

(** What the package gets from outside: the generated
    [tagFormatTypeString] (it returns a value together with its error),
    [encoding/json] on a string, on a [tagFormatType] and on a [config],
    and [envconfig.Process], which reads the environment of the process
    into a zero [config]. *)
Record Env : Type := {
  tagFormatTypeString : string → tagFormatType * option string;
  json_Unmarshal_string : bytes → string + string;
  json_Marshal_tagFormatType : tagFormatType → bytes * option string;
  json_Unmarshal_config : bytes → config * option string;
  envconfig_Process : config * option string;
}.

(** [processTags]; Go ranges over the map in an unspecified order, the
    model in the order of [map_to_list]. *)
Definition processTags (t : TagSet) (tags : gmap string string) : list string :=
  foldl (λ res kv,
           if negb (bool_decide (kv.2 = "")) && negb (TagSet_get t kv.1)
           then app res [kv.1 +:+ ":" +:+ kv.2]
           else res)
        [] (map_to_list tags).

(** [len(data)] is zero for the nil and for the empty slice. *)
Definition is_empty (data : bytes) : bool :=
  match data with
  | None => true
  | Some s => bool_decide (s = "")
  end.

(** [string(data)] *)
Definition to_string (data : bytes) : string := default "" data.

(** [UnmarshalText] *)
Definition UnmarshalText (X : Env) (d : nullTagFormatType) (data : bytes)
  : nullTagFormatType * option string :=
  if is_empty data then ({| t := tagFormatNone; Valid := false |}, None)
  else
    let '(v, err) := tagFormatTypeString X (to_string data) in
    let d := {| t := v; Valid := Valid d |} in
    match err with
    | Some e => (d, Some e)
    | None => ({| t := t d; Valid := true |}, None)
    end.

(** [bytes.Equal(data, []byte(`null`))] *)
Definition is_null (data : bytes) : bool := bool_decide (to_string data = "null").

(** [UnmarshalJSON] *)
Definition UnmarshalJSON (X : Env) (d : nullTagFormatType) (data : bytes)
  : nullTagFormatType * option string :=
  if is_null data then ({| t := t d; Valid := false |}, None)
  else
    match json_Unmarshal_string X data with
    | inr e => (d, Some e)
    | inl s =>
        let '(v, err) := tagFormatTypeString X s in
        let d := {| t := v; Valid := Valid d |} in
        match err with
        | Some e => (d, Some e)
        | None => ({| t := t d; Valid := true |}, None)
        end
    end.

(** [MarshalJSON] *)
Definition MarshalJSON (X : Env) (d : nullTagFormatType) : bytes * option string :=
  if negb (Valid d) then (Some "null", None)
  else json_Marshal_tagFormatType X (t d).

(** [Apply] *)
Definition Apply (c cfg : config) : config :=
  let c := if ns_Valid (Addr cfg)
           then {| Addr := Addr cfg; BufferSize := BufferSize c; Namespace := Namespace c;
                   PushInterval := PushInterval c; TagBlocklist := TagBlocklist c;
                   TagFormat := TagFormat c |} else c in
  let c := if ni_Valid (BufferSize cfg)
           then {| Addr := Addr c; BufferSize := BufferSize cfg; Namespace := Namespace c;
                   PushInterval := PushInterval c; TagBlocklist := TagBlocklist c;
                   TagFormat := TagFormat c |} else c in
  let c := if ns_Valid (Namespace cfg)
           then {| Addr := Addr c; BufferSize := BufferSize c; Namespace := Namespace cfg;
                   PushInterval := PushInterval c; TagBlocklist := TagBlocklist c;
                   TagFormat := TagFormat c |} else c in
  let c := if nd_Valid (PushInterval cfg)
           then {| Addr := Addr c; BufferSize := BufferSize c; Namespace := Namespace c;
                   PushInterval := PushInterval cfg; TagBlocklist := TagBlocklist c;
                   TagFormat := TagFormat c |} else c in
  let c := match TagBlocklist cfg with
           | Some _ =>
               {| Addr := Addr c; BufferSize := BufferSize c; Namespace := Namespace c;
                  PushInterval := PushInterval c; TagBlocklist := TagBlocklist cfg;
                  TagFormat := TagFormat c |}
           | None => c
           end in
  let c := if Valid (TagFormat cfg)
           then {| Addr := Addr c; BufferSize := BufferSize c; Namespace := Namespace c;
                   PushInterval := PushInterval c; TagBlocklist := TagBlocklist c;
                   TagFormat := TagFormat cfg |} else c in
  c.

(** [newConfig]; one second is 1000000000 nanoseconds. *)
Definition newConfig : config := {|
  Addr := {| ns_String := "localhost:8125"; ns_Valid := false |};
  BufferSize := {| ni_Int64 := 20; ni_Valid := false |};
  Namespace := {| ns_String := "k6."; ns_Valid := false |};
  PushInterval := {| nd_Duration := 1 * 1000000000; nd_Valid := false |};
  TagBlocklist := Some ∅;
  TagFormat := {| t := tagFormatNone; Valid := false |};
|}.

(** [getConsolidatedConfig]; [jsonRawConf] is a [json.RawMessage], nil
    when [None].  The [env] argument is not used by the code. *)
Definition getConsolidatedConfig (X : Env) (jsonRawConf : bytes)
    (env : gmap string string) : config * option string :=
  let result := newConfig in
  let afterJSON : config * option string :=
    match jsonRawConf with
    | Some _ =>
        let '(jsonConf, err) := json_Unmarshal_config X jsonRawConf in
        match err with
        | Some e => (result, Some e)
        | None => (Apply result jsonConf, None)
        end
    | None => (result, None)
    end in
  match afterJSON with
  | (result, Some e) => (result, Some e)
  | (result, None) =>
      let '(envConfig, err) := envconfig_Process X in
      match err with
      | Some e => (result, Some e)
      | None => (Apply result envConfig, None)
      end
  end.

(** A stand-in environment for the examples. *)
Definition testEnv (fromJSON fromEnv : config * option string) : Env := {|
  tagFormatTypeString := λ s,
    if decide (s = "none") then (tagFormatNone, None)
    else if decide (s = "datadog") then (tagFormatDatadog, None)
    else if decide (s = "newrelic") then (tagFormatNewrelic, None)
    else if decide (s = "statsdv2") then (tagFormatStatsdv2, None)
    else (tagFormatNone, Some (s +:+ " does not belong to tagFormatType values"));
  json_Unmarshal_string := λ data, inr "json: cannot unmarshal";
  json_Marshal_tagFormatType := λ v,
    (Some match v with
          | tagFormatNone => "0" | tagFormatDatadog => "1"
          | tagFormatNewrelic => "2" | tagFormatStatsdv2 => "3"
          end, None);
  json_Unmarshal_config := λ _, fromJSON;
  envconfig_Process := fromEnv;
|}.
End statsd.

(** ** Events added by each function *)

Section Events.
Context (E : Engine).
Implicit Types (w : World E) (l d : list Event).

Lemma modes_app l1 l2 : modes (l1 ++ l2) = (modes l1 ++ modes l2)%list.
Proof. apply omap_app. Qed.

Lemma transforms_app l1 l2 : transforms (l1 ++ l2) = (transforms l1 ++ transforms l2)%list.
Proof. apply omap_app. Qed.

Lemma transformed_app l1 l2 : transformed (l1 ++ l2) = (transformed l1 ++ transformed l2)%list.
Proof. apply omap_app. Qed.

Lemma parsed_app l1 l2 : parsed (l1 ++ l2) = (parsed l1 ++ parsed l2)%list.
Proof. apply omap_app. Qed.

Lemma warnings_app l1 l2 : warnings (l1 ++ l2) = (warnings l1 ++ warnings l2)%list.
Proof. apply omap_app. Qed.

Lemma events_emit e w : events (emit e w) = (events w ++ [e])%list.
Proof. reflexivity. Qed.

Lemma silent_nil : silent [].
Proof. by repeat split. Qed.

Lemma silent_app d1 d2 : silent d1 → silent d2 → silent (d1 ++ d2).
Proof.
  intros (?&?&?&?&?) (?&?&?&?&?). unfold silent.
  rewrite modes_app, transforms_app, transformed_app, parsed_app, warnings_app.
  by repeat match goal with H : _ = [] |- _ => rewrite H; clear H end.
Qed.

Lemma onceBabelCode_Do_events w :
  ∃ d, events (onceBabelCode_Do E w) = (events w ++ d)%list ∧ silent d.
Proof.
  unfold onceBabelCode_Do. destruct (onceBabelCode w).
  - exists []. by rewrite app_nil_r.
  - exists [EvBabelBuild]. by repeat split.
Qed.

Lemma newBabel_events w w' r :
  newBabel E w = (w', r) → ∃ d, events w' = (events w ++ d)%list ∧ silent d.
Proof.
  unfold newBabel. intros H.
  destruct (onceBabelCode_Do_events w) as (d & Hd & Hs).
  exists d. split; [|done]. rewrite <- Hd.
  repeat case_match; by simplify_eq.
Qed.

Lemma transformImpl_events src file b sm w w' r :
  transformImpl E src file b sm w = (w', r) →
  ∃ d, events w' = (events w ++ d)%list ∧ silent d.
Proof.
  unfold transformImpl. intros H.
  repeat case_match; simplify_eq;
    first [ by exists []; rewrite app_nil_r
          | by eexists [_]; split; [reflexivity | repeat split] ].
Qed.

Lemma set_babels_events once g cb w : events (set_babels E once g cb w) = events w.
Proof. reflexivity. Qed.

(** [Transform] logs its call first and, unless it panics, its result
    last; in between come only the babel build and debug lines. *)
Lemma Transform_events c src file sm w w' r :
  Transform E c src file sm w = (w', r) →
  ∃ d, events w' = (events w ++ EvTransform src sm :: d)%list ∧
       modes d = [] ∧ transforms d = [] ∧ parsed d = [] ∧ warnings d = [] ∧
       transformed d = match r with Return t => [t] | Panic => [] end.
Proof.
  unfold Transform. intros H.
  destruct (c_babel (emit (EvTransform src sm) w)) eqn:Hcb.
  - rewrite Hcb in H.
    destruct (transformImpl E src file _ sm _) as [w1 [[code m] err]] eqn:Ht.
    apply transformImpl_events in Ht as (d & Hd & (?&?&?&?&?)).
    simplify_eq. exists (d ++ [EvTransformed code m err])%list.
    rewrite events_emit, Hd, events_emit, <- !app_assoc. split; [done|].
    rewrite modes_app, transforms_app, parsed_app, warnings_app, transformed_app.
    by repeat match goal with H : _ = [] |- _ => rewrite H; clear H end.
  - destruct (onceBabel (emit (EvTransform src sm) w)) eqn:Ho.
    + simpl in H. destruct (globalBabel w) eqn:Hg.
      * destruct (transformImpl E src file _ sm _) as [w1 [[code m] err]] eqn:Ht.
        apply transformImpl_events in Ht as (d & Hd & (?&?&?&?&?)).
        simplify_eq. exists (d ++ [EvTransformed code m err])%list.
        rewrite events_emit, Hd, set_babels_events, events_emit, <- !app_assoc.
        split; [done|].
        rewrite modes_app, transforms_app, parsed_app, warnings_app, transformed_app.
        by repeat match goal with H : _ = [] |- _ => rewrite H; clear H end.
      * simplify_eq. exists []. by rewrite set_babels_events, events_emit.
    + destruct (newBabel E (emit (EvTransform src sm) w)) as [w1 r1] eqn:Hn.
      apply newBabel_events in Hn as (d1 & Hd1 & (?&?&?&?&?)).
      rewrite events_emit in Hd1.
      destruct r1 as [[[b|] [err|]]|]; simpl in H.
      * simplify_eq. exists (d1 ++ [EvTransformed "" None (Some err)])%list.
        rewrite events_emit, set_babels_events, Hd1, <- !app_assoc. split; [done|].
        rewrite modes_app, transforms_app, parsed_app, warnings_app, transformed_app.
        by repeat match goal with H : _ = [] |- _ => rewrite H; clear H end.
      * destruct (transformImpl E src file _ sm _) as [w2 [[code m] e2]] eqn:Ht.
        apply transformImpl_events in Ht as (d & Hd & (?&?&?&?&?)).
        simplify_eq. exists (d1 ++ d ++ [EvTransformed code m e2])%list.
        rewrite events_emit, Hd, set_babels_events, Hd1, <- !app_assoc.
        split; [done|].
        rewrite !modes_app, !transforms_app, !parsed_app, !warnings_app, !transformed_app.
        by repeat match goal with H : _ = [] |- _ => rewrite H; clear H end.
      * simplify_eq. exists (d1 ++ [EvTransformed "" None (Some err)])%list.
        rewrite events_emit, set_babels_events, Hd1, <- !app_assoc. split; [done|].
        rewrite modes_app, transforms_app, parsed_app, warnings_app, transformed_app.
        by repeat match goal with H : _ = [] |- _ => rewrite H; clear H end.
      * simplify_eq. exists d1.
        by rewrite set_babels_events, Hd1, <- !app_assoc.
      * simplify_eq. exists d1.
        by rewrite set_babels_events, Hd1, <- !app_assoc.
Qed.

Lemma parseCode_events c file code st w w' st' r :
  parseCode E c file code st w = (w', st', r) →
  ∃ d, events w' = (events w ++ d)%list ∧ parseStage file code d.
Proof.
  unfold parseCode, parserOpts. intros H.
  repeat case_match; simplify_eq; rewrite ?events_emit, <- ?app_assoc;
    eexists; (split; [reflexivity|]); eexists; eauto.
Qed.

Lemma parseStage_quiet file code d :
  parseStage file code d →
  modes d = [] ∧ transforms d = [] ∧ transformed d = [] ∧
  (∀ p, p ∈ parsed d → p.1 = code).
Proof.
  intros [b [->|[e ->]]]; repeat split; simpl; intros p Hp;
    repeat (apply elem_of_cons in Hp as [->|Hp]; [done|]);
    by apply elem_of_nil in Hp.
Qed.

(** One unfolding of [compileImpl]. *)
Lemma compileImpl_unfold n c src file main mode sm w :
  compileImpl E (S n) c src file main mode sm w =
  let '(w1, state, (ast, err)) :=
    parseCode E c file (parserInput main src)
      {| couldntLoadSourceMap := false; srcMap := sm; main := main |}
      (emit (EvCompileImpl src main mode sm) w) in
  match err with
  | Some err =>
      match mode with
      | lib.CompatibilityModeExtended =>
          let '(w2, r) := Transform E c src file (srcMap state) w1 in
          match r with
          | Panic => Some (w2, Panic)
          | Return (code, _, Some err) => Some (w2, Return (None, code, Some err))
          | Return (code, newSrcMap, None) =>
              compileImpl E n c code file main lib.CompatibilityModeBase newSrcMap w2
          end
      | lib.CompatibilityModeBase =>
          Some (w1, Return (None, parserInput main src, Some err))
      end
  | None =>
      match goja_CompileAST E ast (Strict (Opts c)) with
      | inl pgm => Some (w1, Return (Some pgm, parserInput main src, None))
      | inr e => Some (w1, Return (None, parserInput main src, Some (CompileError e)))
      end
  end.
Proof. reflexivity. Qed.

(** In Base mode one unit of fuel is enough, and nothing is transformed. *)
Lemma compileImpl_Base n c src file main sm w :
  ∃ w' st ast err,
    parseCode E c file (parserInput main src)
      {| couldntLoadSourceMap := false; srcMap := sm; main := main |}
      (emit (EvCompileImpl src main lib.CompatibilityModeBase sm) w)
      = (w', st, (ast, err)) ∧
    compileImpl E (S n) c src file main lib.CompatibilityModeBase sm w =
      Some (w', Return
        match err with
        | Some e => (None, parserInput main src, Some e)
        | None =>
            match goja_CompileAST E ast (Strict (Opts c)) with
            | inl pgm => (Some pgm, parserInput main src, None)
            | inr e => (None, parserInput main src, Some (CompileError e))
            end
        end).
Proof.
  rewrite compileImpl_unfold.
  destruct (parseCode _ _ _ _ _ _) as [[w' st] [ast err]].
  exists w', st, ast, err. split; [done|].
  destruct err; [done|]. by destruct (goja_CompileAST _ _ _).
Qed.

Lemma compileImpl_Base_fuel n c src file main sm w :
  compileImpl E (S n) c src file main lib.CompatibilityModeBase sm w =
  compileImpl E 1 c src file main lib.CompatibilityModeBase sm w.
Proof.
  by rewrite !compileImpl_unfold.
Qed.

(** Two units of fuel are always enough. *)
Lemma compileImpl_fuel n c src file main mode sm w :
  compileImpl E (S (S n)) c src file main mode sm w =
  compileImpl E 2 c src file main mode sm w.
Proof.
  destruct mode; [|by rewrite !(compileImpl_Base_fuel (S _))].
  rewrite !(compileImpl_unfold (S _)).
  repeat case_match; first [done | apply compileImpl_Base_fuel].
Qed.

(** Every call of [compileImpl] with two units of fuel returns, and runs
    in one of the three ways of [CompileRun]. *)
Lemma compileImpl_run n c src file main mode sm w :
  ∃ w' r d,
    compileImpl E (S (S n)) c src file main mode sm w = Some (w', r) ∧
    events w' = (events w ++ d)%list ∧
    CompileRun E src file main mode sm d r.
Proof.
  rewrite compileImpl_unfold.
  destruct (parseCode _ _ _ _ _ _) as [[w1 st] [ast err]] eqn:Hp.
  apply parseCode_events in Hp as (dp & Hdp & Hps). rewrite events_emit in Hdp.
  destruct err as [e|].
  - destruct mode.
    + destruct (Transform _ _ _ _ _ _) as [w2 r] eqn:Ht.
      apply Transform_events in Ht as (dt & Hdt & ? & ? & ? & ? & Htd).
      destruct r as [[[code m] [e'|]]|].
      * eexists _, _, _. split; [done|]. split.
        { rewrite Hdt, Hdp, <- ?app_assoc. reflexivity. }
        apply run_transform_failed; eauto.
      * destruct (compileImpl_Base n c code file main m w2)
          as (w3 & st3 & ast3 & err3 & Hp3 & ->).
        apply parseCode_events in Hp3 as (dp3 & Hdp3 & Hps3).
        rewrite events_emit in Hdp3.
        eexists _, _, _. split; [done|]. split.
        { rewrite Hdp3, Hdt, Hdp, <- ?app_assoc. simpl.
          rewrite <- ?app_assoc. reflexivity. }
        destruct err3 as [?|]; [|destruct (goja_CompileAST _ _ _)];
          by apply run_transformed.
      * eexists _, _, _. split; [done|]. split.
        { rewrite Hdt, Hdp, <- ?app_assoc. reflexivity. }
        by apply run_transform_failed.
    + eexists _, _, _. split; [done|]. split.
      { rewrite Hdp, <- ?app_assoc. reflexivity. }
      by apply run_direct.
  - destruct (goja_CompileAST _ _ _); eexists _, _, _;
      (split; [done|]); (split; [rewrite Hdp, <- ?app_assoc; reflexivity|]);
      by apply run_direct.
Qed.

Lemma Compile_run c src file main w :
  ∃ w' r d,
    Compile E c src file main w = Some (w', r) ∧
    events w' = (events w ++ d)%list ∧
    CompileRun E src file main (CompatibilityMode (Opts c)) None d r.
Proof. apply (compileImpl_run 0). Qed.
End Events.

(** ** The fallback chain *)

(** C1: along the chain of [compileImpl] calls of one [Compile] call the
    compatibility mode never increases: the chain starts in the configured
    mode and a later call never has a higher mode than an earlier one.
    The transform is invoked at most once, only when the call started in
    Extended mode and always on the original, unwrapped source; after a
    transform that succeeded the chain is Extended, Base, the second call
    compiling the transform's output.  A call that starts in Base mode
    never invokes the transform. *)
Theorem Compile_mode_never_increases (E : Engine) (c : Compiler) (src file : string)
    (main : bool) (w : World E) :
  ∃ w' r d,
    Compile E c src file main w = Some (w', r) ∧
    events w' = (events w ++ d)%list ∧
    head (modes d) = Some (CompatibilityMode (Opts c)) ∧
    (∀ i j mi mj, (i < j)%nat → modes d !! i = Some mi → modes d !! j = Some mj →
                  (lib.rank mj ≤ lib.rank mi)%nat) ∧
    (length (transforms d) ≤ 1)%nat ∧
    (∀ t, t ∈ transforms d →
          t.1 = src ∧ CompatibilityMode (Opts c) = lib.CompatibilityModeExtended) ∧
    (CompatibilityMode (Opts c) = lib.CompatibilityModeBase → transforms d = []) ∧
    (∀ code m, (code, m, None) ∈ transformed d →
       modes d = [lib.CompatibilityModeExtended; lib.CompatibilityModeBase] ∧
       EvCompileImpl code main lib.CompatibilityModeBase m ∈ d) ∧
    (modes d = [CompatibilityMode (Opts c)] ∨
     modes d = [lib.CompatibilityModeExtended; lib.CompatibilityModeBase]).
Proof.
  destruct (Compile_run E c src file main w) as (w' & r & d & HC & Hev & Hrun).
  exists w', r, d. split; [done|]. split; [done|].
  assert (Hshape :
    (modes d = [CompatibilityMode (Opts c)] ∧
       (transforms d = [] ∨
        CompatibilityMode (Opts c) = lib.CompatibilityModeExtended ∧
        ∃ sm, transforms d = [(src, sm)]) ∧
       ∀ code m, (code, m, None) ∉ transformed d) ∨
    (CompatibilityMode (Opts c) = lib.CompatibilityModeExtended ∧
     modes d = [lib.CompatibilityModeExtended; lib.CompatibilityModeBase] ∧
     (∃ sm, transforms d = [(src, sm)]) ∧
     ∃ code m, transformed d = [(code, m, None)] ∧
               EvCompileImpl code main lib.CompatibilityModeBase m ∈ d)).
  { inversion Hrun as [dp pgm err Hps|dp sm dt r0 Hm Hps Hmd Htd Hpd Hr
                       |dp sm dt code m dp' pgm err Hm Hps Hmd Htd Hpd Htr Hps']; subst.
    - apply parseStage_quiet in Hps as (Hm & Ht & Htr & _).
      left. simpl. rewrite Hm, Ht. split; [done|]. split; [by left|].
      intros code m. simpl. rewrite Htr. apply not_elem_of_nil.
    - apply parseStage_quiet in Hps as (Hm' & Ht' & Htr' & _).
      left. simpl. rewrite modes_app, transforms_app, Hm', Ht'. simpl.
      rewrite Hmd, Htd, Hm. split; [done|]. split; [right; eauto|].
      intros code m. rewrite transformed_app, Htr'. simpl.
      destruct r as [[[pgm code'] err]|].
      + destruct Hr as (_ & m' & e & -> & ->).
        intros Hin. apply list_elem_of_singleton in Hin. congruence.
      + rewrite Hr. apply not_elem_of_nil.
    - apply parseStage_quiet in Hps as (Hm1 & Ht1 & Htr1 & _).
      apply parseStage_quiet in Hps' as (Hm2 & Ht2 & Htr2 & _).
      right. split; [done|]. simpl.
      rewrite !modes_app, !transforms_app, !transformed_app; simpl.
      rewrite !modes_app, !transforms_app, !transformed_app; simpl.
      rewrite Hm1, Ht1, Htr1, Hm2, Ht2, Htr2, Hmd, Htd, Htr, Hm. simpl.
      split; [done|]. split; [eauto|]. exists code, m. split; [done|].
      apply elem_of_cons. right. apply elem_of_app. right.
      apply elem_of_cons. right. apply elem_of_app. right.
      apply elem_of_cons. by left. }
  destruct Hshape as [(Hm & Ht & Hno)|(Hext & Hm & (sm & Ht) & code & m & Htr & Hin)].
  - rewrite Hm. split; [done|]. split.
    { intros i j mi mj Hij Hi Hj. destruct j as [|j]; [lia|]. done. }
    split; [destruct Ht as [->|(_ & sm & ->)]; simpl; lia|].
    split.
    { intros t Hin. destruct Ht as [Ht|(Hext & sm & Ht)]; rewrite Ht in Hin.
      - by apply elem_of_nil in Hin.
      - apply list_elem_of_singleton in Hin as ->. done. }
    split.
    { intros HB. destruct Ht as [Ht|(Hext & _)]; [done|congruence]. }
    split; [intros code m Hin; by apply Hno in Hin|by left].
  - rewrite Hm, Ht, Htr, Hext. split; [done|]. split.
    { intros i j mi mj Hij Hi Hj.
      destruct i as [|[|i]], j as [|[|j]]; simplify_eq/=; lia. }
    split; [simpl; lia|]. split.
    { intros t Hin'. by apply list_elem_of_singleton in Hin' as ->. }
    split; [done|]. split; [|by right].
    intros code' m' Hin'. apply list_elem_of_singleton in Hin'. by simplify_eq.
Qed.

(** ** The function shell *)

Lemma splitOn_app sep s1 s2 :
  splitOn sep (s1 +:+ String sep s2) = (splitOn sep s1 ++ splitOn sep s2)%list.
Proof.
  induction s1 as [|a s1 IH]; simpl.
  - by rewrite decide_True.
  - rewrite IH. destruct (decide (a = sep)); [done|].
    destruct (splitOn sep s1) as [|g gs] eqn:Hs; [|done].
    by destruct s1; simpl in Hs; repeat case_match.
Qed.

(** The lines of a wrapped text: the opening of the shell, the lines of the
    source, the closing of the shell (the text ends with a line feed). *)
Lemma wrap_lines (s : string) :
  splitOn "010"%char (wrap s) =
  ("(function(module, exports){" :: splitOn "010"%char s ++ ["})"; ""])%list.
Proof.
  change (wrap s) with
    ("(function(module, exports){" +:+
       String "010" (s +:+ String "010" ("})" +:+ String "010" ""))).
  by rewrite !splitOn_app.
Qed.

Lemma length_append (s t : string) :
  String.length (s +:+ t) = (String.length s + String.length t)%nat.
Proof. induction s as [|a s IH]; simpl; [done|by rewrite IH]. Qed.

Lemma append_inj_r (s1 s2 t : string) : s1 +:+ t = s2 +:+ t → s1 = s2.
Proof.
  revert s2. induction s1 as [|a s1 IH]; intros [|b s2] H; simpl in H.
  - done.
  - apply (f_equal String.length) in H. simpl in H. rewrite !length_append in H.
    simpl in H. lia.
  - apply (f_equal String.length) in H. simpl in H. rewrite !length_append in H.
    simpl in H. lia.
  - injection H as -> H. f_equal. by apply IH.
Qed.

(** Different sources have different shells around them. *)
Lemma wrap_inj (s1 s2 : string) : wrap s1 = wrap s2 → s1 = s2.
Proof.
  unfold wrap. intros H. simplify_eq/=. by apply append_inj_r in H.
Qed.

(** C4: for a module that is not the entry module, every text handed to
    the parser is the function shell around the original source or around
    the text the transform returned, and whenever [Compile] returns a
    program, and also when it returns the parser's error, the text it
    returns is that shell around the original source (no transform ran) or
    around the transform's output (after the fallback).  The shell is put
    around the source once: its lines are the opening line, the lines of
    the source, and the closing, so the source starts exactly one line
    further down, and the wrapped source is recovered uniquely. *)
Theorem Compile_wraps_once (E : Engine) (c : Compiler) (src file : string) (w : World E) :
  ∃ w' r d,
    Compile E c src file false w = Some (w', r) ∧
    events w' = (events w ++ d)%list ∧
    (∀ p, p ∈ parsed d →
          p.1 = wrap src ∨ ∃ t m, transformed d = [(t, m, None)] ∧ p.1 = wrap t) ∧
    (∀ pgm text err, r = Return (pgm, text, err) →
       (∀ t m e, (t, m, Some e) ∉ transformed d) →
       (transforms d = [] ∧ text = wrap src) ∨
       (∃ t m, transformed d = [(t, m, None)] ∧ text = wrap t)) ∧
    (∀ pgm text, r = Return (Some pgm, text, None) →
       ∃ b, last (parsed d) = Some (text, b)) ∧
    (∀ s, splitOn "010"%char (wrap s) =
          ("(function(module, exports){" :: splitOn "010"%char s ++ ["})"; ""])%list) ∧
    (∀ s1 s2, wrap s1 = wrap s2 → s1 = s2).
Proof.
  destruct (Compile_run E c src file false w) as (w' & r & d & HC & Hev & Hrun).
  exists w', r, d. split; [done|]. split; [done|].
  assert (Hlast : ∀ code dp, parseStage file code dp →
            ∃ b, last (parsed dp) = Some (code, b) ∧ parsed dp ≠ []).
  { intros code dp [b [->|[e ->]]]; simpl; eauto. }
  split; [|split; [|split; [|split; [apply wrap_lines|apply wrap_inj]]]].
  - inversion Hrun as [dp pgm err Hps|dp sm dt r0 Hm Hps Hmd Htd Hpd Hr
                       |dp sm dt code m dp' pgm err Hm Hps Hmd Htd Hpd Htr Hps']; subst.
    + apply parseStage_quiet in Hps as (_ & _ & _ & Hp).
      intros p Hin. left. by apply Hp.
    + apply parseStage_quiet in Hps as (_ & _ & _ & Hp).
      intros p Hin. left. apply Hp. simpl in Hin.
      rewrite parsed_app in Hin. simpl in Hin. rewrite Hpd, app_nil_r in Hin. done.
    + apply parseStage_quiet in Hps as (_ & _ & Htr1 & Hp).
      apply parseStage_quiet in Hps' as (_ & _ & Htr2 & Hp').
      intros p Hin. simpl in Hin.
      rewrite parsed_app in Hin; simpl in Hin. rewrite parsed_app in Hin; simpl in Hin.
      rewrite Hpd in Hin. simpl in Hin. apply elem_of_app in Hin as [Hin|Hin].
      * left. by apply Hp.
      * right. exists code, m. split; [|by apply Hp'].
        simpl. rewrite transformed_app; simpl. rewrite transformed_app; simpl.
        by rewrite Htr1, Htr, Htr2.
  - intros pgm text err -> Hok.
    inversion Hrun as [dp pgm' err' Hps|dp sm dt r0 Hm Hps Hmd Htd Hpd Hr
                       |dp sm dt code m dp' pgm' err' Hm Hps Hmd Htd Hpd Htr Hps']; subst.
    + apply parseStage_quiet in Hps as (_ & Ht & _ & _). left. by rewrite <- Ht.
    + destruct Hr as (_ & m & e & -> & Htr). exfalso. apply (Hok text m e).
      simpl. rewrite transformed_app. apply elem_of_app. right. simpl.
      rewrite Htr. by apply list_elem_of_singleton.
    + apply parseStage_quiet in Hps as (_ & _ & Htr1 & _).
      apply parseStage_quiet in Hps' as (_ & _ & Htr2 & _).
      right. exists code, m. split; [|done].
      simpl. rewrite transformed_app; simpl. rewrite transformed_app; simpl.
      by rewrite Htr1, Htr, Htr2.
  - intros pgm text ->.
    inversion Hrun as [dp pgm' err' Hps|dp sm dt r0 Hm Hps Hmd Htd Hpd Hr
                       |dp sm dt code m dp' pgm' err' Hm Hps Hmd Htd Hpd Htr Hps']; subst.
    + destruct (Hlast _ _ Hps) as (b & Hl & _). by exists b.
    + by destruct Hr as (? & _).
    + destruct (Hlast _ _ Hps') as (b & Hl & Hne). exists b. simpl.
      rewrite parsed_app; simpl. rewrite parsed_app; simpl. rewrite Hpd. simpl.
      rewrite last_app. by rewrite Hl.
Qed.

(** ** The repair of source maps *)

Lemma lineGroups_shift (str : string) :
  lineGroups (";" +:+ str) = ("" :: lineGroups str)%list.
Proof. reflexivity. Qed.

(** C5: when the bytes decode to an object whose [mappings] member is a
    string [str] of N groups between semicolons, the repair function
    leaves the flag alone and returns what [json.Marshal] gives for the
    object with an updated table (so it succeeds whenever the marshalling
    does, with those bytes); that table has N+1 groups, the first one
    empty and groups 2..N+1 equal to the original groups 1..N in order.
    When the decoded object has no [mappings] member, the input bytes
    come back unchanged. *)
Theorem increaseMappingsByOne_shifts (E : Engine) (c : compilationState)
    (sourceMap : bytes) (m : gmap string JSON) :
  json_Unmarshal E sourceMap = inl m →
  (m !! "mappings" = None →
     increaseMappingsByOne E c sourceMap = (c, (sourceMap, None))) ∧
  (∀ str, m !! "mappings" = Some (JString str) →
     ∃ m' str',
       increaseMappingsByOne E c sourceMap =
         (c, ((json_Marshal E m').1, JSONError <$> (json_Marshal E m').2)) ∧
       (∀ out, json_Marshal E m' = (out, None) →
               increaseMappingsByOne E c sourceMap = (c, (out, None))) ∧
       m' !! "mappings" = Some (JString str') ∧
       length (lineGroups str') = S (length (lineGroups str)) ∧
       lineGroups str' !! 0%nat = Some "" ∧
       (∀ i, lineGroups str' !! S i = lineGroups str !! i) ∧
       lineGroups str' = ("" :: lineGroups str)%list).
Proof.
  intros Hm. unfold increaseMappingsByOne. rewrite Hm. split.
  - by intros ->.
  - intros str ->.
    exists (<["mappings" := JString (";" +:+ str)]> m), (";" +:+ str).
    split; [by destruct (json_Marshal E _)|].
    split; [by intros out ->|].
    split; [by rewrite lookup_insert_eq|].
    by rewrite lineGroups_shift.
Qed.

Lemma increaseMappingsByOne_shifts_witness :
  increaseMappingsByOne TestEngine.engine (TestEngine.state0 false)
      (Some TestEngine.sectionsMap)
    = (TestEngine.state0 false, (Some TestEngine.sectionsMap, None)) ∧
  ∃ m' str',
    increaseMappingsByOne TestEngine.engine (TestEngine.state0 false)
        (Some TestEngine.goodMap) =
      (TestEngine.state0 false,
       ((json_Marshal TestEngine.engine m').1,
        JSONError <$> (json_Marshal TestEngine.engine m').2)) ∧
    (∀ out, json_Marshal TestEngine.engine m' = (out, None) →
            increaseMappingsByOne TestEngine.engine (TestEngine.state0 false)
                (Some TestEngine.goodMap)
              = (TestEngine.state0 false, (out, None))) ∧
    m' !! "mappings" = Some (JString str') ∧
    length (lineGroups str') = S (length (lineGroups "AAAA;CAAC,EAAE")) ∧
    lineGroups str' !! 0%nat = Some "" ∧
    (∀ i, lineGroups str' !! S i = lineGroups "AAAA;CAAC,EAAE" !! i) ∧
    lineGroups str' = ("" :: lineGroups "AAAA;CAAC,EAAE")%list.
Proof.
  split.
  - apply (increaseMappingsByOne_shifts TestEngine.engine (TestEngine.state0 false)
             (Some TestEngine.sectionsMap) (<["version" := JNumber 3%Z]> ∅)).
    + vm_compute. reflexivity.
    + vm_compute. reflexivity.
  - apply (increaseMappingsByOne_shifts TestEngine.engine (TestEngine.state0 false)
             (Some TestEngine.goodMap) TestEngine.goodObject).
    + vm_compute. reflexivity.
    + vm_compute. reflexivity.
Defined.

(** The stand-in JSON reads back what the repair wrote for [goodMap]. *)
Example increaseMappingsByOne_goodMap :
  ∃ out,
    increaseMappingsByOne TestEngine.engine (TestEngine.state0 false)
      (Some TestEngine.goodMap)
    = (TestEngine.state0 false, (out, None)) ∧
    json_Unmarshal TestEngine.engine out =
      inl (<["mappings" := JString ";AAAA;CAAC,EAAE"]> TestEngine.goodObject).
Proof. eexists. split; [vm_compute; reflexivity|]. vm_compute. reflexivity. Qed.

(** C10: when the repair function succeeds on bytes that decode to the
    object [m], the flag is as before and the bytes it returns are either
    the input itself (no [mappings] member) or the serialisation of an
    object [m'] with the same members as [m] and, for every key other
    than [mappings], the same value.  Hence, when [json.Unmarshal] reads
    the output back as the object that was serialised, every other
    top-level key has its input value. *)
Theorem increaseMappingsByOne_frame (E : Engine) (c c' : compilationState)
    (sourceMap out : bytes) (m : gmap string JSON) :
  json_Unmarshal E sourceMap = inl m →
  increaseMappingsByOne E c sourceMap = (c', (out, None)) →
  c' = c ∧
  ∃ m',
    (out = sourceMap ∧ m' = m ∨ json_Marshal E m' = (out, None)) ∧
    dom m' = dom m ∧
    (∀ k, k ≠ "mappings" → m' !! k = m !! k) ∧
    (∀ m2, json_Unmarshal E out = inl m2 →
           (json_Marshal E m' = (out, None) → json_Unmarshal E out = inl m') →
           ∀ k, k ≠ "mappings" → m2 !! k = m !! k).
Proof.
  intros Hm. unfold increaseMappingsByOne. rewrite Hm.
  destruct (m !! "mappings") as [v|] eqn:Hk.
  - destruct v as [| | |str| |]; try (intros; simplify_eq; fail).
    destruct (json_Marshal E _) as [out' err] eqn:HM. intros Heq.
    destruct err; simplify_eq/=. split; [done|].
    exists (<["mappings" := JString (";" +:+ str)]> m).
    split; [by right|]. split.
    { apply elem_of_dom_2 in Hk. rewrite dom_insert_L.
      apply set_eq. intros k. rewrite elem_of_union, elem_of_singleton.
      split; [intros [->|?]; done|by right]. }
    split; [intros k Hne; by rewrite lookup_insert_ne|].
    intros m2 H2 Hrt k Hne. rewrite (Hrt HM) in H2. simplify_eq.
    by rewrite lookup_insert_ne.
  - intros Heq. simplify_eq. split; [done|]. exists m.
    split; [by left|]. split; [done|]. split; [done|].
    intros m2 H2 _ k _. congruence.
Qed.

Lemma increaseMappingsByOne_frame_witness :
  ∃ out,
    increaseMappingsByOne TestEngine.engine (TestEngine.state0 false)
        (Some TestEngine.goodMap)
      = (TestEngine.state0 false, (out, None)) ∧
    ∃ m' : gmap string JSON,
      (out = Some TestEngine.goodMap ∧ m' = TestEngine.goodObject ∨
       json_Marshal TestEngine.engine m' = (out, None)) ∧
      dom m' = dom TestEngine.goodObject ∧
      (∀ k, k ≠ "mappings" → m' !! k = TestEngine.goodObject !! k) ∧
      (∀ m2, json_Unmarshal TestEngine.engine out = inl m2 →
             (json_Marshal TestEngine.engine m' = (out, None) →
              json_Unmarshal TestEngine.engine out = inl m') →
             ∀ k, k ≠ "mappings" → m2 !! k = TestEngine.goodObject !! k).
Proof.
  eexists. split; [vm_compute; reflexivity|].
  refine (proj2 (increaseMappingsByOne_frame TestEngine.engine
            (TestEngine.state0 false) (TestEngine.state0 false)
            (Some TestEngine.goodMap) _ TestEngine.goodObject _ _)).
  - vm_compute. reflexivity.
  - vm_compute. reflexivity.
Defined.

(** C9: in a compilation that is not the entry module, the loader
    callback hands back, for the sentinel path, the repair of the map in
    memory, and for any other path whose load succeeds, the repair of the
    loaded map, which it also stores as the current map; when the loaded
    map decodes to an object with a string [mappings] member, the bytes
    handed back are the serialisation of that object with its table
    shifted by one line. *)
Theorem sourceMapLoader_shifts_loaded (E : Engine) (o : Options)
    (load : string → bytes * option string) (path : string) (data : bytes)
    (c : compilationState) :
  main c = false →
  SourceMapLoader o = Some load →
  path ≠ sourceMapURLFromBabel →
  load path = (data, None) →
  sourceMapLoader E o sourceMapURLFromBabel c = increaseMappingsByOne E c (srcMap c) ∧
  sourceMapLoader E o path c = increaseMappingsByOne E (set_srcMap data c) data ∧
  (∀ m str,
     json_Unmarshal E data = inl m → m !! "mappings" = Some (JString str) →
     ∀ out, json_Marshal E (<["mappings" := JString (";" +:+ str)]> m) = (out, None) →
            sourceMapLoader E o path c = (set_srcMap data c, (out, None))) ∧
  (∀ m, json_Unmarshal E data = inl m → m !! "mappings" = None →
        sourceMapLoader E o path c = (set_srcMap data c, (data, None))).
Proof.
  intros Hmain Hload Hne Hdata.
  assert (Hext : sourceMapLoader E o path c
                 = increaseMappingsByOne E (set_srcMap data c) data).
  { unfold sourceMapLoader. rewrite decide_False by done.
    rewrite Hload, Hdata. simpl. by rewrite Hmain. }
  split; [|split; [done|split]].
  - unfold sourceMapLoader. rewrite decide_True by done. by rewrite Hmain.
  - intros m str Hm Hk out HM. rewrite Hext.
    unfold increaseMappingsByOne. by rewrite Hm, Hk, HM.
  - intros m Hm Hk. rewrite Hext.
    unfold increaseMappingsByOne. by rewrite Hm, Hk.
Qed.

Lemma sourceMapLoader_shifts_loaded_witness :
  ∃ out,
    sourceMapLoader TestEngine.engine
      (Opts (TestEngine.compiler lib.CompatibilityModeBase (Some TestEngine.load) false))
      "good.map" (TestEngine.state0 false)
    = (set_srcMap (Some TestEngine.goodMap) (TestEngine.state0 false), (out, None)) ∧
    json_Unmarshal TestEngine.engine out =
      inl (<["mappings" := JString ";AAAA;CAAC,EAAE"]> TestEngine.goodObject).
Proof.
  eexists. split.
  - refine (proj1 (proj2 (proj2 (sourceMapLoader_shifts_loaded TestEngine.engine
              (Opts (TestEngine.compiler lib.CompatibilityModeBase
                       (Some TestEngine.load) false))
              TestEngine.load "good.map" (Some TestEngine.goodMap)
              (TestEngine.state0 false) _ _ _ _))) TestEngine.goodObject
              "AAAA;CAAC,EAAE" _ _ _ _).
    + reflexivity.
    + reflexivity.
    + vm_compute. discriminate.
    + vm_compute. reflexivity.
    + vm_compute. reflexivity.
    + vm_compute. reflexivity.
    + vm_compute. reflexivity.
  - vm_compute. reflexivity.
Defined.

(** ** Errors and where they come from *)

Section Errors.
Context (E : Engine).

Lemma fromLoader_syntax (msgs : list string) :
  existsb fromLoader (SyntaxError <$> msgs) = false.
Proof. induction msgs; simpl; auto. Qed.

Lemma fromLoader_ErrorList_Err errs e :
  ErrorList_Err errs = Some e → fromLoader e = existsb fromLoader errs.
Proof. destruct errs; intros; by simplify_eq/=. Qed.

Lemma ParseFile_disabled file code st :
  ParseFile E file code WithDisableSourceMaps st =
  (st, ((parseProgram E file code).1,
        ErrorList_Err (SyntaxError <$> (parseProgram E file code).2))).
Proof.
  unfold ParseFile. destruct (parseProgram E file code) as [prg syn].
  simpl. by rewrite app_nil_r.
Qed.

(** The repair function never returns an error of the loader. *)
Lemma increaseMappingsByOne_error c sm c' out e :
  increaseMappingsByOne E c sm = (c', (out, Some e)) → fromLoader e = false.
Proof.
  unfold increaseMappingsByOne. intros H.
  repeat case_match; simplify_eq/=; try done.
  destruct o; by simplify_eq/=.
Qed.

(** An error of the loader always comes with the flag raised. *)
Lemma sourceMapLoader_error o path c c' out e :
  sourceMapLoader E o path c = (c', (out, Some e)) →
  fromLoader e = true → couldntLoadSourceMap c' = true.
Proof.
  unfold sourceMapLoader. intros H Hl.
  repeat case_match; simplify_eq/=; try done;
    apply increaseMappingsByOne_error in H; congruence.
Qed.

Lemma parseSourceMap_error o file code st st' errs :
  parseSourceMap E file code (WithSourceMapLoader (sourceMapLoader E o)) st = (st', errs) →
  existsb fromLoader errs = true → couldntLoadSourceMap st' = true.
Proof.
  unfold parseSourceMap. intros H Hl.
  destruct (sourceMappingURL E file code) as [|[d|e]|url]; simplify_eq/=;
    repeat case_match; simplify_eq/=; try done.
  rewrite orb_false_r in Hl. by eapply sourceMapLoader_error.
Qed.

(** Lines 359 to 371 never let an error of the loader through: it is
    replaced by the outcome of the parse without source maps. *)
Lemma parseCode_error c file code st w w' st' ast e :
  parseCode E c file code st w = (w', st', (ast, Some e)) → fromLoader e = false.
Proof.
  unfold parseCode, parserOpts. intros H.
  destruct (SourceMapLoader (Opts c)) as [load|] eqn:Hload.
  - destruct (ParseFile E file code _ st) as [st1 [ast1 err1]] eqn:HP.
    destruct (couldntLoadSourceMap st1) eqn:Hflag.
    + rewrite ParseFile_disabled in H. simplify_eq.
      match goal with H : ErrorList_Err _ = Some _ |- _ =>
        apply fromLoader_ErrorList_Err in H as -> end.
      apply fromLoader_syntax.
    + simplify_eq. unfold ParseFile in HP.
      destruct (parseProgram E file code) as [prg syn].
      destruct (parseSourceMap E file code _ st) as [st2 maperrs] eqn:HM.
      simplify_eq.
      match goal with H : ErrorList_Err _ = Some _ |- _ =>
        apply fromLoader_ErrorList_Err in H as -> end.
      rewrite existsb_app, fromLoader_syntax. simpl.
      destruct (existsb fromLoader maperrs) eqn:Hex; [|done].
      eapply parseSourceMap_error in HM; [congruence|done].
  - rewrite ParseFile_disabled in H.
    destruct (couldntLoadSourceMap st); rewrite ?ParseFile_disabled in H;
      simplify_eq;
      match goal with H : ErrorList_Err _ = Some _ |- _ =>
        apply fromLoader_ErrorList_Err in H as -> end;
      apply fromLoader_syntax.
Qed.

Lemma newBabel_error w w' b e :
  newBabel E w = (w', Return (b, Some e)) → fromLoader e = false.
Proof. unfold newBabel. intros H. repeat case_match; by simplify_eq/=. Qed.

Lemma transformImpl_error src file b sm w w' code m e :
  transformImpl E src file b sm w = (w', (code, m, Some e)) → fromLoader e = false.
Proof. unfold transformImpl. intros H. repeat case_match; by simplify_eq/=. Qed.

Lemma Transform_error c src file sm w w' code m e :
  Transform E c src file sm w = (w', Return (code, m, Some e)) → fromLoader e = false.
Proof.
  unfold Transform. intros H.
  repeat case_match; simplify_eq/=;
    first [ by eapply transformImpl_error | by eapply newBabel_error | done ].
Qed.

(** No call of [compileImpl] returns an error of the loader. *)
Lemma compileImpl_error n c src file main mode sm w w' pgm text e :
  compileImpl E n c src file main mode sm w = Some (w', Return (pgm, text, Some e)) →
  fromLoader e = false.
Proof.
  revert src mode sm w. induction n as [|n IH]; intros src mode sm w; [done|].
  rewrite compileImpl_unfold.
  destruct (parseCode _ _ _ _ _ _) as [[w1 st] [ast err]] eqn:Hp.
  destruct err as [e1|].
  - apply parseCode_error in Hp. destruct mode.
    + destruct (Transform _ _ _ _ _ _) as [w2 r] eqn:Ht.
      destruct r as [[[code m] [e2|]]|]; intros H; simplify_eq.
      * by apply Transform_error in Ht.
      * by eapply IH.
    + intros H. by simplify_eq.
  - destruct (goja_CompileAST _ _ _); intros H; by simplify_eq.
Qed.
End Errors.

(** ** Source maps that cannot be loaded or decoded *)

(** C6: with a loader that fails on every call, a source whose text
    parses and compiles natively and that refers to an external source
    map is compiled successfully: the first parse asks the loader, a
    warning is logged, the text is parsed once more with source maps
    disabled, and the program is returned.  And whatever the source, the
    mode and the loader, no error that [Compile] returns is the loader's
    error or wraps it. *)
Theorem Compile_survives_failing_loader (E : Engine) (c : Compiler) (src file : string)
    (main : bool) (load : string → bytes * option string) (url : string)
    (ast : ast_Program E) (pgm : goja_Program E) (w : World E) :
  SourceMapLoader (Opts c) = Some load →
  (∀ p, (load p).2 ≠ None) →
  sourceMappingURL E file (parserInput main src) = ExternalSourceMap url →
  url ≠ sourceMapURLFromBabel →
  parseProgram E file (parserInput main src) = (ast, []) →
  goja_CompileAST E ast (Strict (Opts c)) = inl pgm →
  (∃ w' e,
     Compile E c src file main w =
       Some (w', Return (Some pgm, parserInput main src, None)) ∧
     (load url).2 = Some e ∧
     events w' =
       (events w ++
        [ EvCompileImpl src main (CompatibilityMode (Opts c)) None;
          EvParseFile (parserInput main src) true;
          EvWarn file (Some (ErrorList [CouldNotLoadSourceMap (LoaderError e)]));
          EvParseFile (parserInput main src) false ])%list) ∧
  (∀ src' main' w0, ∃ w' r,
     Compile E c src' file main' w0 = Some (w', r) ∧
     ∀ pgm' text e, r = Return (pgm', text, Some e) → fromLoader e = false).
Proof.
  intros Hload Hfail Hurl Hne Hsyn Hcomp. split.
  - destruct (load url) as [data [e|]] eqn:Hl; [|by specialize (Hfail url); rewrite Hl in Hfail].
    eexists _, e. split; [|split; [done|]].
    + assert (HP : ParseFile E file (parserInput main src)
                     (WithSourceMapLoader (sourceMapLoader E (Opts c)))
                     {| couldntLoadSourceMap := false; srcMap := None; main := main |}
                   = ({| couldntLoadSourceMap := true; srcMap := data; main := main |},
                      (ast, Some (ErrorList [CouldNotLoadSourceMap (LoaderError e)])))).
      { unfold ParseFile, parseSourceMap, sourceMapLoader.
        rewrite Hsyn, Hurl, decide_False by done. by rewrite Hload, Hl. }
      unfold Compile. rewrite compileImpl_unfold.
      unfold parseCode, parserOpts. rewrite Hload, HP. simpl.
      rewrite ParseFile_disabled, Hsyn. simpl. rewrite Hcomp. reflexivity.
    + simpl. rewrite <- !app_assoc. reflexivity.
  - intros src' main' w0.
    destruct (Compile_run E c src' file main' w0) as (w' & r & d & HC & _).
    exists w', r. split; [done|]. intros pgm' text e ->.
    by eapply compileImpl_error.
Qed.

Lemma Compile_survives_failing_loader_witness :
  ∃ w',
    Compile TestEngine.engine
      (TestEngine.compiler lib.CompatibilityModeBase (Some TestEngine.noFile) false)
      TestEngine.goneSrc "script.js" false (freshWorld TestEngine.engine) =
      Some (w', Return (Some (wrap TestEngine.goneSrc), wrap TestEngine.goneSrc, None)) ∧
    warnings (events w') = ["script.js"] ∧
    parsed (events w') = [(wrap TestEngine.goneSrc, true); (wrap TestEngine.goneSrc, false)].
Proof.
  destruct (Compile_survives_failing_loader TestEngine.engine
              (TestEngine.compiler lib.CompatibilityModeBase (Some TestEngine.noFile) false)
              TestEngine.goneSrc "script.js" false
              TestEngine.noFile "gone.map" (wrap TestEngine.goneSrc)
              (wrap TestEngine.goneSrc)
              (freshWorld TestEngine.engine)) as [(w' & e & HC & He & Hev) _].
  - reflexivity.
  - intros p. vm_compute. discriminate.
  - vm_compute. reflexivity.
  - vm_compute. discriminate.
  - vm_compute. reflexivity.
  - vm_compute. reflexivity.
  - exists w'. split; [exact HC|]. rewrite Hev. split; reflexivity.
Defined.

(** C7: a map that the loader returns but [json.Unmarshal] rejects is not
    handled like a failed load.  In a module that is not the entry module
    and in Base mode, for a text that parses natively, the repair function
    returns the decode error without raising the flag, the parser reports
    it, there is no warning and no second parse, and [Compile] returns
    the error to its caller. *)
Theorem Compile_undecodable_map_is_fatal (E : Engine) (c : Compiler) (src file : string)
    (load : string → bytes * option string) (url : string) (data : bytes)
    (msg : string) (ast : ast_Program E) (w : World E) :
  CompatibilityMode (Opts c) = lib.CompatibilityModeBase →
  SourceMapLoader (Opts c) = Some load →
  parseProgram E file (wrap src) = (ast, []) →
  sourceMappingURL E file (wrap src) = ExternalSourceMap url →
  url ≠ sourceMapURLFromBabel →
  load url = (data, None) →
  json_Unmarshal E data = inr msg →
  sourceMapLoader E (Opts c) url
      {| couldntLoadSourceMap := false; srcMap := None; main := false |}
    = ({| couldntLoadSourceMap := false; srcMap := data; main := false |},
       (None, Some (JSONError msg))) ∧
  ∃ w',
    Compile E c src file false w =
      Some (w', Return (None, wrap src,
                        Some (ErrorList [CouldNotLoadSourceMap (JSONError msg)]))) ∧
    events w' =
      (events w ++ [ EvCompileImpl src false lib.CompatibilityModeBase None;
                     EvParseFile (wrap src) true ])%list.
Proof.
  intros Hmode Hload Hsyn Hurl Hne Hl Hjson.
  assert (HL : sourceMapLoader E (Opts c) url
                 {| couldntLoadSourceMap := false; srcMap := None; main := false |}
               = ({| couldntLoadSourceMap := false; srcMap := data; main := false |},
                  (None, Some (JSONError msg)))).
  { unfold sourceMapLoader, increaseMappingsByOne.
    rewrite decide_False by done. rewrite Hload, Hl. simpl. by rewrite Hjson. }
  split; [done|].
  assert (HP : ParseFile E file (wrap src)
                 (WithSourceMapLoader (sourceMapLoader E (Opts c)))
                 {| couldntLoadSourceMap := false; srcMap := None; main := false |}
               = ({| couldntLoadSourceMap := false; srcMap := data; main := false |},
                  (ast, Some (ErrorList [CouldNotLoadSourceMap (JSONError msg)])))).
  { unfold ParseFile, parseSourceMap. by rewrite Hsyn, Hurl, HL. }
  eexists. split.
  - unfold Compile. rewrite Hmode, compileImpl_unfold.
    unfold parseCode, parserOpts. change (parserInput false src) with (wrap src).
    rewrite Hload, HP. reflexivity.
  - simpl. by rewrite <- !app_assoc.
Qed.

Lemma Compile_undecodable_map_is_fatal_witness :
  ∃ w',
    Compile TestEngine.engine
      (TestEngine.compiler lib.CompatibilityModeBase (Some TestEngine.load) false)
      TestEngine.brokenSrc "script.js" false (freshWorld TestEngine.engine) =
      Some (w', Return (None, wrap TestEngine.brokenSrc,
                        Some (ErrorList [CouldNotLoadSourceMap
                                           (JSONError "invalid character")]))) ∧
    events w' =
      [ EvCompileImpl TestEngine.brokenSrc false lib.CompatibilityModeBase None;
        EvParseFile (wrap TestEngine.brokenSrc) true ].
Proof.
  refine (proj2 (Compile_undecodable_map_is_fatal TestEngine.engine
                   (TestEngine.compiler lib.CompatibilityModeBase (Some TestEngine.load) false)
                   TestEngine.brokenSrc "script.js"
                   TestEngine.load "broken.map" (Some "<html>") "invalid character"
                   (wrap TestEngine.brokenSrc) (freshWorld TestEngine.engine)
                   _ _ _ _ _ _ _)).
  - reflexivity.
  - reflexivity.
  - vm_compute. reflexivity.
  - vm_compute. reflexivity.
  - vm_compute. discriminate.
  - vm_compute. reflexivity.
  - vm_compute. reflexivity.
Defined.

(** In the same situation a map whose [mappings] member is not a string
    takes the sibling path of the repair function: the flag is raised,
    the warning is logged, and the second parse succeeds. *)
Example Compile_odd_map_recovers :
  outcome (Compile TestEngine.engine
             (TestEngine.compiler lib.CompatibilityModeBase (Some TestEngine.load) false)
             TestEngine.oddSrc "script.js" false (freshWorld TestEngine.engine))
    = Some (Return (Some (wrap TestEngine.oddSrc), wrap TestEngine.oddSrc, None)) ∧
  warnings (trace (Compile TestEngine.engine
             (TestEngine.compiler lib.CompatibilityModeBase (Some TestEngine.load) false)
             TestEngine.oddSrc "script.js" false (freshWorld TestEngine.engine)))
    = ["script.js"].
Proof. split; vm_compute; reflexivity. Qed.

(** ** Sources the parser rejects *)

Section Syntax.
Context (E : Engine).

(** The error of lines 359 to 371 starts with the syntax errors of the
    text, whichever of the two parses produced it. *)
Lemma parseCode_syntax c file code st w w' st' ast err prg syn :
  parseCode E c file code st w = (w', st', (ast, err)) →
  parseProgram E file code = (prg, syn) →
  ast = prg ∧ ∃ rest, err = ErrorList_Err ((SyntaxError <$> syn) ++ rest).
Proof.
  unfold parseCode, parserOpts. intros H Hsyn.
  assert (HD : ∀ s, ParseFile E file code WithDisableSourceMaps s
                    = (s, (prg, ErrorList_Err ((SyntaxError <$> syn) ++ [])))).
  { intros s. rewrite ParseFile_disabled, Hsyn. simpl. by rewrite app_nil_r. }
  destruct (SourceMapLoader (Opts c)) as [load|].
  - unfold ParseFile at 1 in H. rewrite Hsyn in H.
    destruct (parseSourceMap E file code _ st) as [st1 maperrs].
    destruct (couldntLoadSourceMap st1).
    + rewrite HD in H. simplify_eq. eauto.
    + simplify_eq. eauto.
  - rewrite HD in H. destruct (couldntLoadSourceMap st);
      rewrite ?HD in H; simplify_eq; eauto.
Qed.

Lemma ErrorList_Err_syntax (syn : list string) (rest : list error) :
  syn ≠ [] →
  ErrorList_Err ((SyntaxError <$> syn) ++ rest)
  = Some (ErrorList ((SyntaxError <$> syn) ++ rest)).
Proof. by destruct syn. Qed.

Lemma ErrorList_Err_None (syn : list string) (rest : list error) :
  ErrorList_Err ((SyntaxError <$> syn) ++ rest) = None → syn = [].
Proof. by destruct syn. Qed.
End Syntax.

(** C2, as the code has it: let the text handed to the parser have syntax
    errors.  In Base mode [Compile] returns the parser's error list, which
    starts with those syntax errors, and transforms nothing.  In Extended
    mode it calls the transform exactly once, on the original source; a
    failure or panic of the transform ends the call, otherwise the result
    is that of [compileImpl] in Base mode on the transform's output; and
    whenever a program is returned, the final text is the transform's
    output (inside the shell for a module that is not the entry module),
    it parses without syntax errors and it differs from the text that was
    rejected, the transform's output differing from the original source. *)
Theorem Compile_rejected_source (E : Engine) (c : Compiler) (src file : string)
    (main : bool) (w : World E) (ast : ast_Program E) (syn : list string) :
  parseProgram E file (parserInput main src) = (ast, syn) →
  syn ≠ [] →
  (CompatibilityMode (Opts c) = lib.CompatibilityModeBase →
     ∃ w' rest d,
       Compile E c src file main w =
         Some (w', Return (None, parserInput main src,
                           Some (ErrorList ((SyntaxError <$> syn) ++ rest)))) ∧
       events w' = (events w ++ d)%list ∧ transforms d = []) ∧
  (CompatibilityMode (Opts c) = lib.CompatibilityModeExtended →
     ∃ w1 st e w' r d,
       parseCode E c file (parserInput main src)
         {| couldntLoadSourceMap := false; srcMap := None; main := main |}
         (emit (EvCompileImpl src main lib.CompatibilityModeExtended None) w)
         = (w1, st, (ast, Some e)) ∧
       Compile E c src file main w =
         (let '(w2, r) := Transform E c src file (srcMap st) w1 in
          match r with
          | Panic => Some (w2, Panic)
          | Return (code, _, Some err) => Some (w2, Return (None, code, Some err))
          | Return (code, m, None) =>
              compileImpl E 1 c code file main lib.CompatibilityModeBase m w2
          end) ∧
       Compile E c src file main w = Some (w', r) ∧
       events w' = (events w ++ d)%list ∧
       transforms d = [(src, srcMap st)] ∧
       (∀ pgm text, r = Return (Some pgm, text, None) →
          ∃ t m, transformed d = [(t, m, None)] ∧
                 text = parserInput main t ∧
                 (parseProgram E file text).2 = [] ∧
                 t ≠ src ∧ text ≠ parserInput main src)).
Proof.
  intros Hsyn Hne. split; intros Hmode; unfold Compile; rewrite Hmode.
  - rewrite compileImpl_unfold.
    destruct (parseCode _ _ _ _ _ _) as [[w1 st] [ast1 err]] eqn:Hp.
    destruct (parseCode_syntax E _ _ _ _ _ _ _ _ _ _ _ Hp Hsyn) as (-> & rest & ->).
    rewrite ErrorList_Err_syntax by done.
    apply parseCode_events in Hp as (dp & Hdp & Hps).
    apply parseStage_quiet in Hps as (_ & Ht & _).
    eexists _, rest, _. split; [done|]. split.
    + rewrite Hdp, events_emit, <- app_assoc. reflexivity.
    + done.
  - rewrite compileImpl_unfold.
    destruct (parseCode _ _ _ _ _ _) as [[w1 st] [ast1 err]] eqn:Hp.
    destruct (parseCode_syntax E _ _ _ _ _ _ _ _ _ _ _ Hp Hsyn) as (-> & rest & ->).
    rewrite ErrorList_Err_syntax by done.
    apply parseCode_events in Hp as (dp & Hdp & Hps).
    apply parseStage_quiet in Hps as (_ & Htp & Htrp & _).
    rewrite events_emit in Hdp.
    destruct (Transform _ _ _ _ _ _) as [w2 r] eqn:HT. pose proof HT as HT'.
    apply Transform_events in HT as (dt & Hdt & _ & Htt & _ & _ & Htrt).
    destruct r as [[[code m] [e'|]]|].
    + eexists w1, st, _, w2, _, _. split; [done|]. split; [by rewrite HT'|].
      split; [done|].
      split; [rewrite Hdt, Hdp, <- !app_assoc; reflexivity|]. split.
      * simpl. rewrite transforms_app. simpl. by rewrite Htp, Htt.
      * intros pgm text [=].
    + destruct (compileImpl_Base E 0 c code file main m w2)
        as (w3 & st3 & ast3 & err3 & Hp3 & HC3).
      destruct (parseProgram E file (parserInput main code)) as [prg3 syn3] eqn:Hsyn3.
      destruct (parseCode_syntax E _ _ _ _ _ _ _ _ _ _ _ Hp3 Hsyn3) as (-> & rest3 & ->).
      apply parseCode_events in Hp3 as (dp3 & Hdp3 & Hps3).
      apply parseStage_quiet in Hps3 as (_ & Htp3 & Htrp3 & _).
      rewrite events_emit in Hdp3.
      eexists w1, st, _, w3, _, _. split; [done|]. split; [by rewrite HT'|].
      split; [exact HC3|]. split.
      { rewrite Hdp3, Hdt, Hdp, <- !app_assoc. reflexivity. }
      split.
      { simpl. rewrite !transforms_app. simpl. rewrite transforms_app. simpl.
        by rewrite Htp, Htt, Htp3. }
      intros pgm text Hr. exists code, m.
      destruct (ErrorList_Err _) as [?|] eqn:Herr; [by simplify_eq|].
      apply ErrorList_Err_None in Herr as ->.
      assert (text = parserInput main code) as ->
        by (destruct (goja_CompileAST _ _ _); by simplify_eq).
      split.
      { simpl. rewrite !transformed_app. simpl. rewrite transformed_app. simpl.
        by rewrite Htrp, Htrt, Htrp3. }
      split; [done|]. split; [by rewrite Hsyn3|].
      split.
      * intros ->. rewrite Hsyn in Hsyn3. by simplify_eq.
      * intros Heq. rewrite Heq, Hsyn in Hsyn3. by simplify_eq.
    + eexists w1, st, _, w2, _, _. split; [done|]. split; [by rewrite HT'|].
      split; [done|].
      split; [rewrite Hdt, Hdp, <- !app_assoc; reflexivity|]. split.
      * simpl. rewrite transforms_app. simpl. by rewrite Htp, Htt.
      * intros pgm text [=].
Qed.

Lemma Compile_rejected_source_witness :
  (∃ w' rest d,
     Compile TestEngine.engine (TestEngine.compiler lib.CompatibilityModeBase None false)
       TestEngine.powSrc "script.js" true (freshWorld TestEngine.engine) =
       Some (w', Return (None, TestEngine.powSrc,
                         Some (ErrorList ((SyntaxError <$> ["Unexpected token *"]) ++ rest)))) ∧
     events w' = (events (freshWorld TestEngine.engine) ++ d)%list ∧ transforms d = []) ∧
  (∃ w1 st e w' r d,
     parseCode TestEngine.engine
       (TestEngine.compiler lib.CompatibilityModeExtended None false) "script.js"
       TestEngine.powSrc (TestEngine.state0 true)
       (emit (EvCompileImpl TestEngine.powSrc true lib.CompatibilityModeExtended None)
             (freshWorld TestEngine.engine))
       = (w1, st, (TestEngine.powSrc, Some e)) ∧
     Compile TestEngine.engine
       (TestEngine.compiler lib.CompatibilityModeExtended None false)
       TestEngine.powSrc "script.js" true (freshWorld TestEngine.engine) =
       (let '(w2, r) :=
          Transform TestEngine.engine
            (TestEngine.compiler lib.CompatibilityModeExtended None false)
            TestEngine.powSrc "script.js" (srcMap st) w1 in
        match r with
        | Panic => Some (w2, Panic)
        | Return (code, _, Some err) => Some (w2, Return (None, code, Some err))
        | Return (code, m, None) =>
            compileImpl TestEngine.engine 1
              (TestEngine.compiler lib.CompatibilityModeExtended None false)
              code "script.js" true lib.CompatibilityModeBase m w2
        end) ∧
     Compile TestEngine.engine
       (TestEngine.compiler lib.CompatibilityModeExtended None false)
       TestEngine.powSrc "script.js" true (freshWorld TestEngine.engine) = Some (w', r) ∧
     events w' = (events (freshWorld TestEngine.engine) ++ d)%list ∧
     transforms d = [(TestEngine.powSrc, srcMap st)] ∧
     (∀ pgm text, r = Return (Some pgm, text, None) →
        ∃ t m, transformed d = [(t, m, None)] ∧
               text = parserInput true t ∧
               (parseProgram TestEngine.engine "script.js" text).2 = [] ∧
               t ≠ TestEngine.powSrc ∧ text ≠ parserInput true TestEngine.powSrc)).
Proof.
  split.
  - refine (proj1 (Compile_rejected_source TestEngine.engine
              (TestEngine.compiler lib.CompatibilityModeBase None false)
              TestEngine.powSrc "script.js" true (freshWorld TestEngine.engine)
              TestEngine.powSrc ["Unexpected token *"] _ _) _).
    + vm_compute. reflexivity.
    + discriminate.
    + reflexivity.
  - refine (proj2 (Compile_rejected_source TestEngine.engine
              (TestEngine.compiler lib.CompatibilityModeExtended None false)
              TestEngine.powSrc "script.js" true (freshWorld TestEngine.engine)
              TestEngine.powSrc ["Unexpected token *"] _ _) _).
    + vm_compute. reflexivity.
    + discriminate.
    + reflexivity.
Defined.

(** On the stand-in engine the lowered program is what Extended mode
    returns for the exponent operator. *)
Example Compile_pow_lowered :
  outcome (Compile TestEngine.engine
             (TestEngine.compiler lib.CompatibilityModeExtended None false)
             TestEngine.powSrc "script.js" true (freshWorld TestEngine.engine))
    = Some (Return (Some "var y = Math.pow(x, 2);", "var y = Math.pow(x, 2);", None)).
Proof. vm_compute. reflexivity. Qed.

(** C2 fails as stated: the stand-in parser rejects the async function, the
    stand-in babel (like the bundled one, whose async plugin is switched
    off in [DefaultOpts]) leaves it as it is, and [Compile] in Extended
    mode returns the syntax error of the second parse together with the
    unchanged text. *)
Lemma Compile_extended_can_fail :
  (parseProgram TestEngine.engine "script.js" TestEngine.asyncSrc).2
    = ["Unexpected reserved word"] ∧
  outcome (Compile TestEngine.engine
             (TestEngine.compiler lib.CompatibilityModeExtended None false)
             TestEngine.asyncSrc "script.js" true (freshWorld TestEngine.engine))
    = Some (Return (None, TestEngine.asyncSrc,
                    Some (ErrorList [SyntaxError "Unexpected reserved word"]))) ∧
  transforms (trace (Compile TestEngine.engine
             (TestEngine.compiler lib.CompatibilityModeExtended None false)
             TestEngine.asyncSrc "script.js" true (freshWorld TestEngine.engine)))
    = [(TestEngine.asyncSrc, None)] ∧
  ¬ (∃ w' pgm text,
       Compile TestEngine.engine
         (TestEngine.compiler lib.CompatibilityModeExtended None false)
         TestEngine.asyncSrc "script.js" true (freshWorld TestEngine.engine) =
       Some (w', Return (Some pgm, text, None)) ∧ text ≠ TestEngine.asyncSrc).
Proof.
  split; [vm_compute; reflexivity|].
  assert (Ho : outcome (Compile TestEngine.engine
             (TestEngine.compiler lib.CompatibilityModeExtended None false)
             TestEngine.asyncSrc "script.js" true (freshWorld TestEngine.engine))
    = Some (Return (None, TestEngine.asyncSrc,
                    Some (ErrorList [SyntaxError "Unexpected reserved word"]))))
    by (vm_compute; reflexivity).
  split; [exact Ho|].
  split; [vm_compute; reflexivity|].
  intros (w' & pgm & text & H & _). rewrite H in Ho. discriminate Ho.
Qed.

(** ** Entry modules the parser accepts *)

(** C3, as the code has it: let the entry module's text have no syntax
    errors, and let the source-map stage of the parse either report
    nothing or raise the load-failed flag.  Then [Compile] parses the
    unwrapped input, transforms nothing, and returns the input text
    together with exactly what the host compile step gives for the parsed
    tree: the program when that step accepts the tree, its error
    otherwise. *)
Theorem Compile_entry_native (E : Engine) (c : Compiler) (src file : string)
    (ast : ast_Program E) (w : World E) :
  parseProgram E file src = (ast, []) →
  (parseSourceMap E file src (parserOpts E c)
     {| couldntLoadSourceMap := false; srcMap := None; main := true |}).2 = [] ∨
  couldntLoadSourceMap
    (parseSourceMap E file src (parserOpts E c)
       {| couldntLoadSourceMap := false; srcMap := None; main := true |}).1 = true →
  ∃ w' d,
    Compile E c src file true w =
      Some (w', Return
        match goja_CompileAST E ast (Strict (Opts c)) with
        | inl pgm => (Some pgm, src, None)
        | inr e => (None, src, Some (CompileError e))
        end) ∧
    events w' = (events w ++ d)%list ∧
    modes d = [CompatibilityMode (Opts c)] ∧
    transforms d = [] ∧
    (∀ p, p ∈ parsed d → p.1 = src).
Proof.
  intros Hsyn Hmap.
  destruct (Compile_run E c src file true w) as (w' & r & d & HC & Hev & Hrun).
  exists w', d.
  assert (Hr : Compile E c src file true w =
    Some (w', Return
      match goja_CompileAST E ast (Strict (Opts c)) with
      | inl pgm => (Some pgm, src, None)
      | inr e => (None, src, Some (CompileError e))
      end) ∧
    ∃ dp, d = EvCompileImpl src true (CompatibilityMode (Opts c)) None :: dp ∧
          parseStage file src dp).
  { revert HC Hev. unfold Compile. rewrite compileImpl_unfold.
    destruct (parseCode _ _ _ _ _ _) as [[w1 st] [ast1 err]] eqn:Hp.
    assert (ast1 = ast ∧ err = None) as [-> ->].
    { change (parserInput true src) with src in Hp.
      revert Hp. unfold parseCode, ParseFile. rewrite Hsyn. simpl.
      destruct (parseSourceMap E file src _ _) as [st1 maperrs]. simpl in Hmap.
      destruct (couldntLoadSourceMap st1) eqn:Hflag.
      - unfold parseSourceMap. intros Hp. by simplify_eq/=.
      - destruct Hmap as [->|?]; [|congruence]. intros Hp. by simplify_eq/=. }
    apply parseCode_events in Hp as (dp & Hdp & Hps). rewrite events_emit in Hdp.
    destruct (goja_CompileAST _ _ _); intros HC Hev; simplify_eq;
      (split; [done|]); exists dp;
      (split; [|done]);
      rewrite Hdp, <- app_assoc in Hev; by apply app_inv_head in Hev. }
  destruct Hr as (Hr & dp & -> & Hps).
  apply parseStage_quiet in Hps as (Hm & Ht & _ & Hp).
  split; [done|]. split; [done|]. simpl. rewrite Hm, Ht. by repeat split.
Qed.

Lemma Compile_entry_native_witness :
  ∃ w' d,
    Compile TestEngine.engine
      (TestEngine.compiler lib.CompatibilityModeExtended (Some TestEngine.load) true)
      TestEngine.plainSrc "script.js" true (freshWorld TestEngine.engine) =
      Some (w', Return (Some TestEngine.plainSrc, TestEngine.plainSrc, None)) ∧
    events w' = (events (freshWorld TestEngine.engine) ++ d)%list ∧
    modes d = [lib.CompatibilityModeExtended] ∧
    transforms d = [] ∧
    (∀ p, p ∈ parsed d → p.1 = TestEngine.plainSrc).
Proof.
  refine (Compile_entry_native TestEngine.engine
            (TestEngine.compiler lib.CompatibilityModeExtended (Some TestEngine.load) true)
            TestEngine.plainSrc "script.js" TestEngine.plainSrc
            (freshWorld TestEngine.engine) _ _).
  - vm_compute. reflexivity.
  - left. vm_compute. reflexivity.
Defined.

(** C3 fails as stated: the text below has no syntax error, the strict
    compile step of the stand-in engine rejects its [with] statement, and
    [Compile] returns that error with the unchanged text. *)
Lemma Compile_entry_can_fail :
  parseProgram TestEngine.engine "script.js" TestEngine.withSrc
    = (TestEngine.withSrc, []) ∧
  outcome (Compile TestEngine.engine
             (TestEngine.compiler lib.CompatibilityModeBase None true)
             TestEngine.withSrc "script.js" true (freshWorld TestEngine.engine))
    = Some (Return (None, TestEngine.withSrc,
                    Some (CompileError
                            "Strict mode code may not include a with statement"))) ∧
  ¬ (∃ w' pgm text,
       Compile TestEngine.engine
         (TestEngine.compiler lib.CompatibilityModeBase None true)
         TestEngine.withSrc "script.js" true (freshWorld TestEngine.engine) =
       Some (w', Return (Some pgm, text, None))).
Proof.
  split; [vm_compute; reflexivity|].
  assert (Ho : outcome (Compile TestEngine.engine
             (TestEngine.compiler lib.CompatibilityModeBase None true)
             TestEngine.withSrc "script.js" true (freshWorld TestEngine.engine))
    = Some (Return (None, TestEngine.withSrc,
                    Some (CompileError
                            "Strict mode code may not include a with statement"))))
    by (vm_compute; reflexivity).
  split; [exact Ho|].
  intros (w' & pgm & text & H). rewrite H in Ho. discriminate Ho.
Qed.

(** An entry module without syntax errors whose map loads but is not a
    source map: the parser reports the map, the flag stays down, and in
    Extended mode the text goes to the transform, which fails to decode
    the same bytes. *)
Example Compile_entry_broken_map :
  outcome (Compile TestEngine.engine
             (TestEngine.compiler lib.CompatibilityModeExtended (Some TestEngine.load) false)
             TestEngine.brokenSrc "script.js" true (freshWorld TestEngine.engine))
    = Some (Return (None, "", Some (JSONError "invalid character"))) ∧
  transforms (trace (Compile TestEngine.engine
             (TestEngine.compiler lib.CompatibilityModeExtended (Some TestEngine.load) false)
             TestEngine.brokenSrc "script.js" true (freshWorld TestEngine.engine)))
    = [(TestEngine.brokenSrc, Some "<html>")] ∧
  warnings (trace (Compile TestEngine.engine
             (TestEngine.compiler lib.CompatibilityModeExtended (Some TestEngine.load) false)
             TestEngine.brokenSrc "script.js" true (freshWorld TestEngine.engine)))
    = [].
Proof. split; [|split]; vm_compute; reflexivity. Qed.

(** ** One build of the babel program *)

Section Once.
Context (E : Engine).
Import Concurrent.

Lemma Inv_initial : Inv (initial E).
Proof.
split; simpl.
- intros j p H. by rewrite lookup_nil in H.
- intros j H. done.
- done.
- by left.
- intros j p H. by rewrite lookup_nil in H.
Qed.

Lemma holder_unique (cfg : Config E) i j p q :
Inv cfg → cfg.2 !! i = Some p → holding p = true →
cfg.2 !! j = Some q → holding q = true → i = j.
Proof.
intros HI Hi Hp Hj Hq.
pose proof (inv_holder cfg HI i p Hi Hp) as H1.
pose proof (inv_holder cfg HI j q Hj Hq) as H2. congruence.
Qed.

Lemma Inv_spawn (cfg : Config E) : Inv cfg → Inv (step cfg Spawn).
Proof.
intros HI. destruct cfg as [s ts]. simpl in *.
assert (Hl : ∀ j p, (ts ++ [AtDoLoad])%list !! j = Some p →
                    ts !! j = Some p ∨ p = AtDoLoad).
{ intros j p H. apply lookup_app_Some in H as [H|[_ H]]; [by left|].
  right. apply list_lookup_singleton_Some in H as [_ <-]. done. }
split; simpl.
- intros j p H Hp. apply Hl in H as [H| ->]; [|done].
  by apply (inv_holder _ HI j p).
- intros j Hm. destruct (inv_mutex _ HI j Hm) as (p & Hp & Hh).
  exists p. split; [|done]. by apply lookup_app_l_Some.
- apply (inv_done _ HI).
- intros Hd. destruct (inv_fresh _ HI Hd) as [?|(j & p & Hp & Hb)]; [by left|].
  right. exists j, p. split; [|done]. by apply lookup_app_l_Some.
- intros j p H. apply Hl in H as [H| ->]; [|done]. by apply (inv_at _ HI j p).
Qed.

Lemma Inv_update (s s' : Shared E) (ts : list (pc E)) (i : nat) (p p' : pc E) :
ts !! i = Some p →
(holding p' = true → mutex s' = Some i) →
(∀ j q, j ≠ i → ts !! j = Some q → holding q = true → mutex s' = Some j) →
(∀ j, mutex s' = Some j →
      j = i ∧ holding p' = true ∨
      j ≠ i ∧ ∃ q, ts !! j = Some q ∧ holding q = true) →
(done s' = true →
   compiles s' = 1 ∧ code s' = built_code E ∧ err s' = built_err E) →
(done s' = false →
   compiles s' = 0 ∨ building p' = true ∨
   ∃ j q, j ≠ i ∧ ts !! j = Some q ∧ building q = true) →
at_pc s' p' →
(∀ j q, j ≠ i → ts !! j = Some q → at_pc s' q) →
Inv (s', <[i := p']> ts).
Proof.
intros Hi Ha Hb Hc Hd He Hf Hg.
assert (Hlt : (i < length ts)%nat) by (by eapply lookup_lt_Some).
split; simpl.
- intros j q H Hq. apply list_lookup_insert_Some in H as [(-> & -> & _)|(Hne & H)].
  + by apply Ha.
  + by eapply Hb.
- intros j Hm. destruct (Hc j Hm) as [[-> Hh]|(Hne & q & Hq & Hh)].
  + exists p'. split; [|done]. by apply list_lookup_insert_eq.
  + exists q. split; [|done]. by rewrite list_lookup_insert_ne.
- done.
- intros Hdn. destruct (He Hdn) as [?|[Hb'|(j & q & Hne & Hq & Hbq)]]; [by left| |].
  + right. exists i, p'. split; [|done]. by apply list_lookup_insert_eq.
  + right. exists j, q. split; [|done]. by rewrite list_lookup_insert_ne.
- intros j q H. apply list_lookup_insert_Some in H as [(-> & -> & _)|(Hne & H)].
  + done.
  + by eapply Hg.
Qed.

Lemma building_holding (p : pc E) : building p = true → holding p = true.
Proof. by destruct p. Qed.

Lemma Inv_run_thread (cfg : Config E) (i : nat) : Inv cfg → Inv (step cfg (Run i)).
Proof.
intros HI. destruct cfg as [s ts]. unfold step. simpl.
destruct (ts !! i) as [p|] eqn:Hi; [|done].
destruct (step1 i s p) as [[s' p']|] eqn:Hs; [|done].
pose proof (inv_at _ HI i p Hi) as Hat. simpl in Hat.
assert (Hother : ∀ j q, j ≠ i → ts !! j = Some q → holding p = true →
                        holding q = false).
{ intros j q Hne Hq Hp. destruct (holding q) eqn:Hh; [|done].
  exfalso. apply Hne. by eapply (holder_unique (s, ts)). }
assert (Hnb : ∀ j q, j ≠ i → ts !! j = Some q → holding p = true →
                     building q = false).
{ intros j q Hne Hq Hp. destruct (building q) eqn:Hb; [|done].
  apply building_holding in Hb. by rewrite (Hother j q) in Hb. }
destruct p; simpl in Hs; try (injection Hs as <- <-).
- (* AtDoLoad *)
  refine (Inv_update s s ts i AtDoLoad _ Hi _ _ _ _ _ _ _).
  + by destruct (done s).
  + intros j q _ Hq Hh. by apply (inv_holder _ HI j q).
  + intros j Hm. destruct (inv_mutex _ HI j Hm) as (q & Hq & Hh). simpl in Hq.
    right. split; [intros ->; by simplify_eq|]. eauto.
  + apply (inv_done _ HI).
  + intros Hd. destruct (inv_fresh _ HI Hd) as [?|(j & q & Hq & Hb)]; [by left|].
    right. right. exists j, q. split; [intros ->; simpl in Hq; by simplify_eq|done].
  + by destruct (done s) eqn:Hd.
  + intros j q _ Hq. by apply (inv_at _ HI j q).
- (* AtLock *)
  destruct (mutex s) eqn:Hm; [done|]. injection Hs as <- <-.
  refine (Inv_update s _ ts i AtLock _ Hi _ _ _ _ _ _ _); simpl.
  + done.
  + intros j q _ Hq Hh. pose proof (inv_holder _ HI j q Hq Hh) as H.
    simpl in H. congruence.
  + intros j [= <-]. by left.
  + apply (inv_done _ HI).
  + intros Hd. destruct (inv_fresh _ HI Hd) as [?|(j & q & Hq & Hb)]; [by left|].
    right. right. exists j, q. split; [intros ->; simpl in Hq; by simplify_eq|done].
  + done.
  + intros j q _ Hq. pose proof (inv_at _ HI j q Hq) as H. by destruct q.
- (* AtCheck *)
  pose proof (inv_holder _ HI i AtCheck Hi eq_refl) as Hm. simpl in Hm.
  refine (Inv_update s s ts i AtCheck _ Hi _ _ _ _ _ _ _).
  + done.
  + intros j q Hne Hq Hh. by rewrite (Hother j q) in Hh.
  + intros j Hj. left. split; [congruence|by destruct (done s)].
  + apply (inv_done _ HI).
  + intros Hd. destruct (inv_fresh _ HI Hd) as [?|(j & q & Hq & Hb)]; [by left|].
    simpl in Hq. destruct (decide (j = i)) as [->|Hne]; [by simplify_eq|].
    by rewrite (Hnb j q) in Hb.
  + destruct (done s) eqn:Hd; [done|]. split; [done|].
    destruct (inv_fresh _ HI Hd) as [?|(j & q & Hq & Hb)]; [done|].
    simpl in Hq. destruct (decide (j = i)) as [->|Hne]; [by simplify_eq|].
    by rewrite (Hnb j q) in Hb.
  + intros j q _ Hq. by apply (inv_at _ HI j q).
- (* AtCall *)
  pose proof (inv_holder _ HI i AtCall Hi eq_refl) as Hm. simpl in Hm.
  destruct Hat as [Hd Hc].
  refine (Inv_update s _ ts i AtCall _ Hi _ _ _ _ _ _ _); simpl.
  + done.
  + intros j q Hne Hq Hh. by rewrite (Hother j q) in Hh.
  + intros j Hj. left. split; [congruence|done].
  + congruence.
  + intros _. right. by left.
  + split; [done|]. by rewrite Hc.
  + intros j q Hne Hq. pose proof (inv_at _ HI j q Hq) as H. simpl in H.
    pose proof (Hother j q Hne Hq eq_refl) as Hh.
    destruct q; simpl in *; try done; try (destruct H; congruence); congruence.
- (* AtStoreCode *)
  pose proof (inv_holder _ HI i AtStoreCode Hi eq_refl) as Hm. simpl in Hm.
  destruct Hat as [Hd Hc].
  refine (Inv_update s _ ts i AtStoreCode _ Hi _ _ _ _ _ _ _); simpl.
  + done.
  + intros j q Hne Hq Hh. by rewrite (Hother j q) in Hh.
  + intros j Hj. left. split; [congruence|done].
  + congruence.
  + intros _. right. by left.
  + done.
  + intros j q Hne Hq. pose proof (inv_at _ HI j q Hq) as H. simpl in H.
    pose proof (Hother j q Hne Hq eq_refl) as Hh.
    destruct q; simpl in *; try done; try (destruct H; congruence); congruence.
- (* AtStoreErr *)
  pose proof (inv_holder _ HI i AtStoreErr Hi eq_refl) as Hm. simpl in Hm.
  destruct Hat as (Hd & Hc & Hcode).
  refine (Inv_update s _ ts i AtStoreErr _ Hi _ _ _ _ _ _ _); simpl.
  + done.
  + intros j q Hne Hq Hh. by rewrite (Hother j q) in Hh.
  + intros j Hj. left. split; [congruence|done].
  + congruence.
  + intros _. right. by left.
  + done.
  + intros j q Hne Hq. pose proof (inv_at _ HI j q Hq) as H. simpl in H.
    pose proof (Hother j q Hne Hq eq_refl) as Hh.
    destruct q; simpl in *; try done; try (destruct H; congruence); congruence.
- (* AtStoreDone *)
  pose proof (inv_holder _ HI i AtStoreDone Hi eq_refl) as Hm. simpl in Hm.
  destruct Hat as (Hd & Hc & Hcode & Herr).
  refine (Inv_update s _ ts i AtStoreDone _ Hi _ _ _ _ _ _ _); simpl.
  + done.
  + intros j q Hne Hq Hh. by rewrite (Hother j q) in Hh.
  + intros j Hj. left. split; [congruence|done].
  + done.
  + done.
  + done.
  + intros j q Hne Hq. pose proof (inv_at _ HI j q Hq) as H. simpl in H.
    pose proof (Hother j q Hne Hq eq_refl) as Hh.
    destruct q; simpl in *; try done; try (destruct H; congruence); congruence.
- (* AtUnlock *)
  refine (Inv_update s _ ts i AtUnlock _ Hi _ _ _ _ _ _ _); simpl.
  + done.
  + intros j q Hne Hq Hh. by rewrite (Hother j q) in Hh.
  + done.
  + apply (inv_done _ HI).
  + intros Hd. simpl in Hat. congruence.
  + done.
  + intros j q _ Hq. pose proof (inv_at _ HI j q Hq) as H. by destruct q.
- (* AtReadErr *)
  destruct (inv_done _ HI Hat) as (Hc & Hcode & Herr). simpl in *.
  assert (s' = s) as -> by (by destruct (err s); simplify_eq).
  refine (Inv_update s s ts i AtReadErr _ Hi _ _ _ _ _ _ _).
  + by destruct (err s); simplify_eq.
  + intros j q _ Hq Hh. by apply (inv_holder _ HI j q).
  + intros j Hm. destruct (inv_mutex _ HI j Hm) as (q & Hq & Hh). simpl in Hq.
    right. split; [intros ->; by simplify_eq|]. eauto.
  + apply (inv_done _ HI).
  + congruence.
  + destruct (err s) as [e|] eqn:He; simplify_eq; simpl.
    * split; [done|]. unfold build_seen. unfold built_err in Herr.
      by destruct (goja_Compile_babelSrc E); simplify_eq.
    * done.
  + intros j q _ Hq. by apply (inv_at _ HI j q).
- (* AtReadCode *)
  destruct Hat as [Hd Hnone].
  destruct (inv_done _ HI Hd) as (Hc & Hcode & Herr). simpl in *.
  refine (Inv_update s s ts i AtReadCode _ Hi _ _ _ _ _ _ _).
  + done.
  + intros j q _ Hq Hh. by apply (inv_holder _ HI j q).
  + intros j Hm. destruct (inv_mutex _ HI j Hm) as (q & Hq & Hh). simpl in Hq.
    right. split; [intros ->; by simplify_eq|]. eauto.
  + apply (inv_done _ HI).
  + congruence.
  + simpl. split; [done|]. rewrite Hcode. unfold build_seen, built_code.
    unfold built_err in Hnone. by destruct (goja_Compile_babelSrc E).
  + intros j q _ Hq. by apply (inv_at _ HI j q).
- (* Saw *)
  done.
Qed.

Lemma Inv_step (cfg : Config E) (ch : choice) : Inv cfg → Inv (step cfg ch).
Proof. destruct ch; [apply Inv_spawn|apply Inv_run_thread]. Qed.

Lemma Inv_foldl (schedule : list choice) (cfg : Config E) :
Inv cfg → Inv (foldl step cfg schedule).
Proof.
revert cfg. induction schedule as [|ch l IH]; intros cfg HI; [done|].
simpl. apply IH. by apply Inv_step.
Qed.

Lemma Inv_compiles (cfg : Config E) : Inv cfg → (compiles cfg.1 ≤ 1)%nat.
Proof.
intros HI. destruct (done cfg.1) eqn:Hd.
- destruct (inv_done _ HI Hd) as (-> & _). done.
- destruct (inv_fresh _ HI Hd) as [->|(j & q & Hq & Hb)]; [lia|].
  pose proof (inv_at _ HI j q Hq) as H.
  destruct q; simpl in *; try done; destruct H as (_ & -> & _) || destruct H as (_ & ->); lia.
Qed.

(** C8: however many goroutines create babel instances and however their
  steps are interleaved, [goja.Compile] runs on the babel source at
  most once, and exactly once by the time any creator has read the
  result; every creator that has read it has seen the same thing, the
  error of that one build or else its program; and a goroutine only
  reads the two package variables when both have been stored, never
  between the two stores. *)
Theorem babel_code_built_once (schedule : list choice) :
(compiles (run (E := E) schedule).1 ≤ 1)%nat ∧
(∀ i e c, (run (E := E) schedule).2 !! i = Some (Saw e c) →
          Saw e c = build_seen E ∧ compiles (run (E := E) schedule).1 = 1%nat) ∧
(∀ i j e c e' c',
   (run (E := E) schedule).2 !! i = Some (Saw e c) →
   (run (E := E) schedule).2 !! j = Some (Saw e' c') →
   e = e' ∧ c = c') ∧
(∀ i p, (run (E := E) schedule).2 !! i = Some p →
        p = AtReadErr ∨ p = AtReadCode →
        done (run (E := E) schedule).1 = true ∧
        code (run (E := E) schedule).1 = built_code E ∧
        err (run (E := E) schedule).1 = built_err E).
Proof.
assert (HI : Inv (run (E := E) schedule)) by apply Inv_foldl, Inv_initial.
split; [by apply Inv_compiles|]. split; [|split].
- intros i e c Hi. pose proof (inv_at _ HI i _ Hi) as [Hd Hs]. simpl in *.
  split; [done|]. by destruct (inv_done _ HI Hd).
- intros i j e c e' c' Hi Hj.
  pose proof (inv_at _ HI i _ Hi) as [_ Hs].
  pose proof (inv_at _ HI j _ Hj) as [_ Hs'].
  rewrite <- Hs' in Hs. by injection Hs.
- intros i p Hi Hp. pose proof (inv_at _ HI i _ Hi) as Hat.
  assert (Hd : done (run (E := E) schedule).1 = true)
    by (destruct Hp as [-> | ->]; simpl in Hat; [done|by destruct Hat]).
  split; [done|]. by destruct (inv_done _ HI Hd) as (_ & ? & ?).
Qed.
End Once.

(** Two creators whose slow paths overlap on the stand-in engine: the second
    waits for the mutex, the first builds, both see the program. *)
Example two_creators_one_build :
  Concurrent.run (E := TestEngine.engine)
    [ Concurrent.Spawn; Concurrent.Spawn;
      Concurrent.Run 0; Concurrent.Run 1; Concurrent.Run 0; Concurrent.Run 1;
      Concurrent.Run 0; Concurrent.Run 0; Concurrent.Run 1; Concurrent.Run 0;
      Concurrent.Run 0; Concurrent.Run 0; Concurrent.Run 0; Concurrent.Run 1;
      Concurrent.Run 1; Concurrent.Run 1; Concurrent.Run 1; Concurrent.Run 1;
      Concurrent.Run 0; Concurrent.Run 0 ]
  = ({| Concurrent.done := true; Concurrent.mutex := None;
        Concurrent.code := Some "babel.min.js" : option (goja_Program TestEngine.engine);
        Concurrent.err := None; Concurrent.compiles := 1 |},
     [ @Concurrent.Saw TestEngine.engine None (Some "babel.min.js");
       @Concurrent.Saw TestEngine.engine None (Some "babel.min.js") ]).
Proof. reflexivity. Qed.
